(** * gluezilla-templater: a shallow embedding of the address model, the page
  finder, the bit-flip scan, the noncontiguous window gate and the
  configuration verification, with their properties. *)

From Stdlib Require Import ZArith List Bool Lia.
From Stdlib Require Ascii String.
Import (notations) String Ascii.
Import ListNotations.
Open Scope Z_scope.

(** ** Machine arithmetic (operators.h and the C++ integer rules) *)
Module Machine.

(** uint64_t wrap-around *)
Definition u64 (z : Z) : Z := z mod 2 ^ 64.

(** [~x] on a uint64_t *)
Definition lnot64 (x : Z) : Z := Z.lxor x (Z.ones 64).

(** [__builtin_popcountll]: number of 1-bits in the low 64 bits *)
Fixpoint popcount_aux (fuel : nat) (x : Z) : Z :=
  match fuel with
  | O => 0
  | S f => (if Z.odd x then 1 else 0) + popcount_aux f (Z.div2 x)
  end.

Definition count_one_bits (x : Z) : Z := popcount_aux 64 x.

(** [xor_bits]: [__builtin_parityll(value & bitmask)] *)
Definition xor_bits (value bitmask : Z) : Z :=
  count_one_bits (Z.land value bitmask) mod 2.

(** [__builtin_ctzll]; undefined on 0 in C++, modelled with the [tzcnt]
    result 64 *)
Fixpoint ctz_aux (fuel : nat) (i x : Z) : Z :=
  match fuel with
  | O => i
  | S f => if Z.testbit x i then i else ctz_aux f (i + 1) x
  end.

Definition count_trailing_zero_bits (x : Z) : Z := ctz_aux 64 0 x.

(** An [int] value (two's complement, 32 bits) *)
Definition to_int32 (z : Z) : Z :=
  let u := z mod 2 ^ 32 in if u <? 2 ^ 31 then u else u - 2 ^ 32.

(** The [int] expression [1 << k]; shift counts of 32 and more are
    undefined in C++, modelled by the x86 [shl], which masks the count
    to 5 bits *)
Definition int_shl1 (k : Z) : Z := to_int32 (Z.shiftl 1 (k mod 32)).

(** conversion of an [int] to [uint64_t] (sign extension) *)
Definition int_to_u64 (z : Z) : Z := z mod 2 ^ 64.

End Machine.
Import Machine.

(** ** DRAM address model (dram_layout.h, dram_address.h, dram_address.cpp) *)
Module Dram.

Record DRAMLayout := mkLayout {
  h_fns : list Z;
  row_masks : list Z;
  col_masks : list Z
}.

Record DRAMAddr := mkDRAMAddr {
  bank : Z;
  row : Z;
  col : Z
}.

Section WithLayout.
Variable L : DRAMLayout.

(** the loop of [DRAMAddr::DRAMAddr(const physaddr_t &)] computing
    [bank |= xor_bits(p_addr, h_fns[i]) << i] *)
Fixpoint bank_loop (p_addr : Z) (fns : list Z) (i b : Z) : Z :=
  match fns with
  | [] => b
  | f :: fs => bank_loop p_addr fs (i + 1) (Z.lor b (u64 (Z.shiftl (xor_bits p_addr f) i)))
  end.

(** general path of [get_dram_row] / [get_dram_col] *)
Fixpoint field_loop (p_addr : Z) (masks : list Z) (offset acc : Z) : Z :=
  match masks with
  | [] => acc
  | m :: ms =>
      field_loop p_addr ms (u64 (offset + count_one_bits m))
        (u64 (acc + u64 (Z.shiftl (Z.shiftr (Z.land p_addr m) (count_trailing_zero_bits m)) offset)))
  end.

(** [get_dram_row] and [get_dram_col] have the same body over their masks *)
Definition get_field (masks : list Z) (p_addr : Z) : Z :=
  match masks with
  | [m] => Z.shiftr (Z.land p_addr m) (count_trailing_zero_bits m)
  | _ => field_loop p_addr masks 0 0
  end.

Definition get_dram_row (p_addr : Z) : Z := get_field (row_masks L) p_addr.
Definition get_dram_col (p_addr : Z) : Z := get_field (col_masks L) p_addr.

(** [DRAMAddr::DRAMAddr(const physaddr_t &)] *)
Definition of_phys (p_addr : Z) : DRAMAddr :=
  mkDRAMAddr (bank_loop p_addr (h_fns L) 0 0) (get_dram_row p_addr) (get_dram_col p_addr).

(** [pop_least_significant_bits(val, n)]: [(1 << n) - 1] is an [int]
    expression; returns the result and the updated [val] *)
Definition pop_least_significant_bits (val n : Z) : Z * Z :=
  (Z.land val (int_to_u64 (to_int32 (int_shl1 n - 1))), Z.shiftr val n).

(** the general path of [phys()] placing a row or column value into its
    masks; returns the address and the rest of the value (the [assert]) *)
Fixpoint place_loop (v : Z) (masks : list Z) (p_addr : Z) : Z * Z :=
  match masks with
  | [] => (p_addr, v)
  | m :: ms =>
      let n := count_one_bits m in
      let offset := count_trailing_zero_bits m in
      let '(bits, v') := pop_least_significant_bits v n in
      place_loop v' ms (Z.lor p_addr (u64 (Z.shiftl bits offset)))
  end.

(** [std::accumulate(masks.begin(), masks.end(), 0ull)] (a sum) *)
Definition accumulate (masks : list Z) : Z :=
  fold_left (fun a m => u64 (a + m)) masks 0.

(** the parity-correction loop of [phys()] *)
Fixpoint fix_loop (bnk : Z) (fns : list Z) (i not_row_mask not_col_mask p_addr : Z) : Z :=
  match fns with
  | [] => p_addr
  | f :: fs =>
      let p' :=
        if xor_bits p_addr f =? Z.land (Z.shiftr bnk i) 1 then p_addr
        else
          let h_lsb := count_trailing_zero_bits (Z.land (Z.land f not_col_mask) not_row_mask) in
          Z.lxor p_addr (int_to_u64 (int_shl1 h_lsb))
      in fix_loop bnk fs (i + 1) not_row_mask not_col_mask p'
  end.

(** the first part of [phys()]: [p_addr] with the row bits set *)
Definition place_row (masks : list Z) (r : Z) : Z :=
  match masks with
  | [m] => u64 (Z.shiftl r (count_trailing_zero_bits m))
  | _ => fst (place_loop r masks 0)
  end.

(** the second part of [phys()]: the column bits added to [p_addr] *)
Definition place_col (masks : list Z) (c p_addr : Z) : Z :=
  match masks with
  | [m] => Z.lor p_addr (u64 (Z.shiftl c (count_trailing_zero_bits m)))
  | _ => fst (place_loop c masks p_addr)
  end.

(** [DRAMAddr::phys()]; the debug check only logs, see [phys_respected] *)
Definition phys (a : DRAMAddr) : Z :=
  let p_rc := place_col (col_masks L) (col a) (place_row (row_masks L) (row a)) in
  fix_loop (bank a) (h_fns L) 0
    (lnot64 (accumulate (row_masks L))) (lnot64 (accumulate (col_masks L))) p_rc.

(** the [DEBUG_REVERSE_FN] check of [phys()]: [false] logs an error *)
Fixpoint parities_ok (bnk p_addr : Z) (fns : list Z) (i : Z) : bool :=
  match fns with
  | [] => true
  | f :: fs => (xor_bits p_addr f =? Z.land (Z.shiftr bnk i) 1) && parities_ok bnk p_addr fs (i + 1)
  end.

Definition phys_respected (a : DRAMAddr) : bool :=
  let p := phys a in parities_ok (bank a) p (h_fns L) 0 && (row a =? get_dram_row p).

(** the bit [phys()] flips to fix the parity of [h]:
    [count_trailing_zero_bits(h_fns[i] & not_col_mask & not_row_mask)] *)
Definition h_lsb (h : Z) : Z :=
  count_trailing_zero_bits
    (Z.land (Z.land h (lnot64 (accumulate (col_masks L)))) (lnot64 (accumulate (row_masks L)))).

End WithLayout.

(** the layout of the end-to-end scenario *)
Definition example_layout : DRAMLayout :=
  mkLayout [0x2040; 0x44000; 0x88000; 0x110000; 0x220000] [0xffffc0000] [0x1fff].

(** the union of the bits of a list of masks *)
Definition or_all (ms : list Z) : Z := fold_right Z.lor 0 ms.

(** a mask whose 1-bits are consecutive (what [Config::verify_masks]
    enforces), with at most [maxn] of them, inside 64 bits *)
Definition mask_ok (maxn m : Z) : Prop :=
  exists n o, 1 <= n <= maxn /\ 0 <= o /\ n + o <= 64 /\ m = Z.shiftl (Z.ones n) o.

(** a well-formed list of row or column masks: consecutive bits, pairwise
    disjoint; the general path of [phys()] builds its low-bit mask with
    the [int] shift [1 << n], so there a mask has at most 31 bits *)
Definition masks_ok (ms : list Z) : Prop :=
  ForallOrdPairs (fun a b => Z.land a b = 0) ms /\
  Forall (mask_ok (if Nat.eqb (length ms) 1 then 64 else 31)) ms.

(** the field value the general path of [get_dram_row] computes, with the
    first-listed mask in the low bits *)
Fixpoint extract (p_addr : Z) (ms : list Z) : Z :=
  match ms with
  | [] => 0
  | m :: ms' =>
      Z.shiftr (Z.land p_addr m) (count_trailing_zero_bits m)
      + Z.shiftl (extract p_addr ms') (count_one_bits m)
  end.

Fixpoint width (ms : list Z) : Z :=
  match ms with
  | [] => 0
  | m :: ms' => count_one_bits m + width ms'
  end.

End Dram.

(** ** Physical page finder (phys_page_finder.h, phys_page_finder.cpp) *)
Module PageFinder.

(** [const uint16_t page_size = 4_KiB], [row_size = 8_KiB] (config.h) *)
Definition page_size : Z := 4096.
Definition row_size : Z := 8192.

(** [std::map<uint32_t, uint32_t>] from frame number to page offset,
    as its list of entries in key order *)
Definition pagemap_t := list (Z * Z).

Fixpoint map_find (k : Z) (m : pagemap_t) : option Z :=
  match m with
  | [] => None
  | (k', v) :: m' => if k =? k' then Some v else map_find k m'
  end.

Record PhysPageFinder := mkFinder {
  mem : Z;
  pagemap : pagemap_t
}.

(** [PhysPageFinder::find_page]: the key [phys_addr / page_size] is
    converted to the map's [uint32_t] key type; returns the result and the
    out-parameter [virt_addr], written only on success *)
Definition find_page (f : PhysPageFinder) (phys_addr virt_addr : Z) : bool * Z :=
  match map_find ((phys_addr / page_size) mod 2 ^ 32) (pagemap f) with
  | None => (false, virt_addr)
  | Some off => (true, u64 (mem f + u64 (off * page_size)))
  end.

(** [frame_number_from_pagemap]: bits 0-54 of a pagemap entry *)
Definition frame_number_from_pagemap (pagemap_entry : Z) : Z :=
  Z.land pagemap_entry (Z.shiftl 1 55 - 1).

(** [is_page_present]: bit 63 of a pagemap entry *)
Definition is_page_present (pagemap_entry : Z) : Z :=
  Z.land pagemap_entry (Z.shiftl 1 63).

(** [get_physical_addr(virtual_addr)]; [/proc/self/pagemap] is the
    function [pm] from an entry index to its [uint64_t] entry, the entry
    read at byte [(virtual_addr / page_size) * 8]; [None] is a failed
    [assert] (page not present, or frame number 0) *)
Definition get_physical_addr (pm : Z -> Z) (virtual_addr : Z) : option Z :=
  let value := pm (virtual_addr / page_size) in
  if Z.land value (Z.shiftl 1 63) =? 0 then None
  else
    let frame_num := frame_number_from_pagemap value in
    if frame_num =? 0 then None
    else Some (Z.lor (u64 (frame_num * page_size)) (Z.land virtual_addr (page_size - 1))).

(** [pagemap[key] = value] on the [std::map], entries kept in key order *)
Fixpoint map_insert (k v : Z) (m : pagemap_t) : pagemap_t :=
  match m with
  | [] => [(k, v)]
  | (k', v') :: m' =>
      if k =? k' then (k, v) :: m'
      else if k <? k' then (k, v) :: m
      else (k', v') :: map_insert k v m'
  end.

(** [read_pages = buffer_size / sizeof(uint64_t)] with [buffer_size = 1_KiB] *)
Definition read_pages : nat := 128.

(** [pread64(fd, buffer, read_pages * 8, k * 8)]: the [read_pages]
    entries from entry [k] on (the pagemap file spans the whole virtual
    address space, the read is not short) *)
Definition pread_entries (pm : Z -> Z) (k : Z) : list Z :=
  map (fun j => pm (k + Z.of_nat j)) (seq 0 read_pages).

(** the inner loop of [PhysPageFinder::PhysPageFinder()] over one buffer,
    [j] counting from 0; [None] is a failed [assert] *)
Fixpoint store_entries (i j : Z) (buffer : list Z) (m : pagemap_t) : option pagemap_t :=
  match buffer with
  | [] => Some m
  | e :: es =>
      if is_page_present e =? 0 then store_entries i (j + 1) es m
      else
        let frame := frame_number_from_pagemap e in
        let page_offset := u64 (i + j) in
        if (frame <=? 2 ^ 32 - 1) && (page_offset <=? 2 ^ 32 - 1)
        then store_entries i (j + 1) es (map_insert (frame mod 2 ^ 32) (page_offset mod 2 ^ 32) m)
        else None
  end.

(** the outer loop [for (i = 0; i < memory_size / page_size; i += read_pages)],
    [mem_page] being [mem / page_size] *)
Fixpoint build_loop (pm : Z -> Z) (mem_page n i : Z) (fuel : nat) (m : pagemap_t)
  : option pagemap_t :=
  match fuel with
  | O => Some m
  | S f =>
      if i <? n then
        match store_entries i 0 (pread_entries pm (mem_page + i)) m with
        | Some m' => build_loop pm mem_page n (i + Z.of_nat read_pages) f m'
        | None => None
        end
      else Some m
  end.

(** the page map the constructor builds for the allocation of
    [memory_size] bytes at [mem]; the loop runs at most
    [memory_size / page_size / read_pages + 1] times *)
Definition build_pagemap (pm : Z -> Z) (mem memory_size : Z) : option pagemap_t :=
  let n := memory_size / page_size in
  build_loop pm (mem / page_size) n 0 (S (Z.to_nat (n / Z.of_nat read_pages))) [].

End PageFinder.

(** ** Bit flipper (bit_flipper.h, bit_flipper.cpp) *)
Module BitFlipper.
Import PageFinder.

(** the virtual-address vectors of a [BitFlipper] *)
Record BitFlipperState := mkFlipper {
  virt_aggs : list Z;
  virt_victims : list Z
}.

(** the constructor sizes both vectors like the physical ones (zeroed) *)
Definition new_flipper (aggs victims : list Z) : BitFlipperState :=
  mkFlipper (repeat 0 (length aggs)) (repeat 0 (length victims)).

(** one loop of [find_pages]: [found &= finder.find_page(phys[i], virt[i])] *)
Fixpoint find_loop (f : PhysPageFinder) (found : bool) (ps vs : list Z) : bool * list Z :=
  match ps, vs with
  | p :: ps', v :: vs' =>
      let '(ok, v') := find_page f p v in
      let '(found', vs'') := find_loop f (found && ok) ps' vs' in
      (found', v' :: vs'')
  | _, _ => (found, vs)
  end.

(** [BitFlipper::find_pages] *)
Definition find_pages (f : PhysPageFinder) (aggs victims : list Z) (st : BitFlipperState)
  : bool * BitFlipperState :=
  let '(found1, va) := find_loop f true aggs (virt_aggs st) in
  let '(found2, vv) := find_loop f found1 victims (virt_victims st) in
  (found2, mkFlipper va vv).

(** a flip as [hammer_and_check] reports it to the log and to
    [db->insert_bitflip(victim_phys, victim_bit, flips_to)] *)
Record BitFlip := mkBitFlip {
  victim_phys : Z;
  victim_bit : Z;
  flips_to : Z
}.

(** the [for (uint8_t bit = 0; bit < 64; bit++)] loop for the word at
    [flip_offset_bytes] of the victim row starting at [victim] *)
Fixpoint bit_loop (victim flip_offset_bytes val victim_init bit : Z) (fuel : nat) : list BitFlip :=
  match fuel with
  | O => []
  | S fuel' =>
      let flips_to := Z.land (Z.shiftr val bit) 1 in
      if Z.land (Z.shiftr victim_init bit) 1 =? flips_to then
        bit_loop victim flip_offset_bytes val victim_init (bit + 1) fuel'
      else
        let victim_byte := bit / 8 in
        mkBitFlip (u64 (victim + flip_offset_bytes + victim_byte)) (bit mod 8) flips_to
          :: bit_loop victim flip_offset_bytes val victim_init (bit + 1) fuel'
  end.

(** one word of the scan: skipped when equal to [victim_init] *)
Definition scan_word (victim flip_offset_bytes val victim_init : Z) : list BitFlip :=
  if val =? victim_init then [] else bit_loop victim flip_offset_bytes val victim_init 0 64.

(** the words of one victim row, read in address order *)
Fixpoint scan_row (victim flip_offset_bytes : Z) (words : list Z) (victim_init : Z) : list BitFlip :=
  match words with
  | [] => []
  | w :: ws =>
      scan_word victim flip_offset_bytes w victim_init
        ++ scan_row victim (flip_offset_bytes + 8) ws victim_init
  end.

(** the check part of [hammer_and_check]: every victim (physical row
    address and the words read through its virtual address); returns the
    flips and [bitflips > 0] *)
Definition check_flips (victims : list (Z * list Z)) (victim_init : Z) : list BitFlip * bool :=
  let flips := flat_map (fun '(p, ws) => scan_row p 0 ws victim_init) victims in
  (flips, negb (Nat.eqb (length flips) 0)).

End BitFlipper.

(** ** Hammer pattern (hammer_pattern.h) *)
Module Pattern.

Inductive token := TokV | TokA | TokX.

Definition parse_char (c : Ascii.ascii) : option token :=
  if Ascii.eqb c "v"%char then Some TokV
  else if Ascii.eqb c "a"%char then Some TokA
  else if Ascii.eqb c "x"%char then Some TokX
  else None.

Fixpoint parse (s : String.string) : option (list token) :=
  match s with
  | String.EmptyString => Some []
  | String.String c s' =>
      match parse_char c, parse s' with
      | Some t, Some ts => Some (t :: ts)
      | _, _ => None
      end
  end.

Definition count_a (ts : list token) : nat :=
  length (filter (fun t => match t with TokA => true | _ => false end) ts).

(** one period: [v] and [a] are literal bits, every [x] takes the next
    drawn gap length (0 once the drawn values run out) *)
Fixpoint expand_period (ts : list token) (fills : list nat) : list bool * list nat :=
  match ts with
  | [] => ([], fills)
  | TokV :: ts' => let '(bs, r) := expand_period ts' fills in (false :: bs, r)
  | TokA :: ts' => let '(bs, r) := expand_period ts' fills in (true :: bs, r)
  | TokX :: ts' =>
      let '(g, fills') := match fills with [] => (0%nat, []) | g :: gs => (g, gs) end in
      let '(bs, r) := expand_period ts' fills' in (repeat false g ++ bs, r)
  end.

Fixpoint expand_periods (n : nat) (ts : list token) (fills : list nat) : list bool :=
  match n with
  | O => []
  | S n' => let '(bs, r) := expand_period ts fills in bs ++ expand_periods n' ts r
  end.

(** Modelled from the spec: [HammerPattern::HammerPattern(description,
    aggressor_rows)] and [create_pattern] (hammer_pattern.cpp) are not in
    the sources. Per the spec, the description is made of [v], [a] and [x]
    tokens; the template is repeated until the number of [a]s reaches
    [aggressor_rows], i.e. the least number of periods whose [a]s are at
    least [aggressor_rows] (no period when it is 0; no construction
    finishes when the template has no [a] and [aggressor_rows > 0]); a
    terminal victim is appended when the sequence ends in an aggressor,
    and the updated [aggressor_rows] is reported back. The gap lengths of
    the [x] tokens are the values drawn by [generate_random_fill_up],
    passed in as [fills]. *)
Definition create_pattern (description : String.string) (aggressor_rows : nat) (fills : list nat)
  : option (list bool * nat) :=
  match parse description with
  | None => None
  | Some ts =>
      let k := count_a ts in
      if Nat.eqb aggressor_rows 0 then Some ([], 0%nat)
      else if Nat.eqb k 0 then None
      else
        let n := ((aggressor_rows + k - 1) / k)%nat in
        let bs := expand_periods n ts fills in
        let bs' := match last bs false with true => bs ++ [false] | false => bs end in
        Some (bs', (n * k)%nat)
  end.

Definition count_true (bs : list bool) : nat := length (filter (fun b => b) bs).

Definition ends_in_a (description : String.string) : bool :=
  match parse description with
  | Some ts => match last ts TokV with TokA => true | _ => false end
  | None => false
  end.

End Pattern.

(** ** Noncontiguous flip finder (noncontiguous_flip_finder.h/.cpp) *)
Module Noncontiguous.

(** [std::set<row_t>::lower_bound(key)]: the least element [>= key] *)
Definition lower_bound (s : list Z) (key : Z) : option Z :=
  fold_right (fun x acc =>
    if key <=? x then match acc with Some y => Some (Z.min x y) | None => Some x end
    else acc) None s.

(** [std::map<bank_t, std::set<row_t>>], entries in key order *)
Definition missing_rows_t := list (Z * list Z).

Fixpoint bank_rows (bank : Z) (m : missing_rows_t) : option (list Z) :=
  match m with
  | [] => None
  | (b, s) :: m' => if bank =? b then Some s else bank_rows bank m'
  end.

(** [is_any_row_missing]; [None] is the [std::out_of_range] thrown by
    [missing_rows.at(bank)] for a bank without missing rows; [row_t] is
    [uint64_t], so [first_row - padding] wraps below 0 *)
Definition is_any_row_missing (missing_rows : missing_rows_t) (row_padding bank first_row last_row : Z)
  : option bool :=
  match bank_rows bank missing_rows with
  | None => None
  | Some s =>
      match lower_bound s (u64 (first_row - row_padding)) with
      | None => Some false
      | Some lb => Some (lb <=? u64 (last_row + row_padding))
      end
  end.

(** what [hammer(bank, first_victim, last_victim)] does with a window *)
Inductive hammer_result :=
| Skipped                      (* [return true] before hammering *)
| Hammered (continue : bool)   (* addresses built, pages found, hammered *)
| Thrown.                      (* exception from [missing_rows.at] *)

(** [NoncontiguousFlipFinder::hammer]: [run] stands for the part after the
    gate (building the addresses, [find_pages], [flipper.hammer()], the
    [do_exit] test) and returns whether to continue *)
Definition hammer (run : Z -> Z -> Z -> bool) (missing_rows : missing_rows_t)
    (row_padding bank first_victim last_victim : Z) : hammer_result :=
  match is_any_row_missing missing_rows row_padding bank first_victim last_victim with
  | None => Thrown
  | Some true => Skipped
  | Some false => Hammered (run bank first_victim last_victim)
  end.

Definition hammer_continues (r : hammer_result) : option bool :=
  match r with Skipped => Some true | Hammered c => Some c | Thrown => None end.

(** [default_test]: windows [row .. row + hammer_rows - 1] for [row] from
    [first_row], [fuel] windows; returns the hammered windows and the
    result ([None] for an exception) *)
Fixpoint default_loop (run : Z -> Z -> Z -> bool) (missing_rows : missing_rows_t)
    (row_padding hammer_rows bank row : Z) (fuel : nat) : list (Z * Z) * option bool :=
  match fuel with
  | O => ([], Some true)
  | S fuel' =>
      let first_victim := row in
      let last_victim := u64 (row + hammer_rows - 1) in
      match hammer run missing_rows row_padding bank first_victim last_victim with
      | Thrown => ([], None)
      | Skipped => default_loop run missing_rows row_padding hammer_rows bank (u64 (row + 1)) fuel'
      | Hammered false => ([(first_victim, last_victim)], Some false)
      | Hammered true =>
          let '(hs, r) := default_loop run missing_rows row_padding hammer_rows bank (u64 (row + 1)) fuel' in
          ((first_victim, last_victim) :: hs, r)
      end
  end.

Definition default_test (run : Z -> Z -> Z -> bool) (missing_rows : missing_rows_t)
    (row_padding hammer_rows bank first_row last_row : Z) : list (Z * Z) * option bool :=
  default_loop run missing_rows row_padding hammer_rows bank first_row
    (Z.to_nat (u64 (last_row - hammer_rows + 1) - first_row + 1)).

(** [fast_test]: the windows [row .. row + hammer_rows - 1] and one row
    further, for [row] from [first_row] while [row <= bound] (the [row_t]
    value [last_row - hammer_rows + 1]), in steps of the [uint32_t]
    [hammer_rows - 1]; returns the hammered windows and the result, [None]
    for an exception or when [fuel] iterations did not end the loop *)
Fixpoint fast_loop (run : Z -> Z -> Z -> bool) (missing_rows : missing_rows_t)
    (row_padding hammer_rows bank row bound : Z) (fuel : nat) : list (Z * Z) * option bool :=
  match fuel with
  | O => ([], None)
  | S fuel' =>
      if row <=? bound then
        let first_victim := row in
        let last_victim := u64 (row + hammer_rows - 1) in
        let w1 := (first_victim, last_victim) in
        let w2 := (u64 (first_victim + 1), u64 (last_victim + 1)) in
        match hammer run missing_rows row_padding bank (fst w1) (snd w1) with
        | Thrown => ([], None)
        | Hammered false => ([w1], Some false)
        | r1 =>
            let h1 := match r1 with Hammered _ => [w1] | _ => [] end in
            match hammer run missing_rows row_padding bank (fst w2) (snd w2) with
            | Thrown => (h1, None)
            | Hammered false => (h1 ++ [w2], Some false)
            | r2 =>
                let h2 := match r2 with Hammered _ => [w2] | _ => [] end in
                let '(hs, r) := fast_loop run missing_rows row_padding hammer_rows bank
                                  (u64 (row + (hammer_rows - 1) mod 2 ^ 32)) bound fuel' in
                (h1 ++ h2 ++ hs, r)
            end
        end
      else ([], Some true)
  end.

Definition fast_test (run : Z -> Z -> Z -> bool) (missing_rows : missing_rows_t)
    (row_padding hammer_rows bank first_row last_row : Z) (fuel : nat) : list (Z * Z) * option bool :=
  fast_loop run missing_rows row_padding hammer_rows bank first_row
    (u64 (last_row - hammer_rows + 1)) fuel.

End Noncontiguous.

(** ** Configuration verification (config.h, config.cpp) *)
Module Config.
Import Dram.

(** the parts of a [HammerPattern] that [verify_values] looks at: its
    description and its bits ([std::vector<bool>]) *)
Record HammerPattern := mkPattern {
  description : String.string;
  pattern_bits : list bool
}.

Record Config := mkConfig {
  dram_layout : DRAMLayout;
  aggressor_rows : Z;
  banks : list Z;
  row_padding : Z;
  hammer_pattern : HammerPattern;
  victim_init : list Z;
  aggressor_init : list Z;
  test_min_rows : Z;
  test_max_rows : Z
}.

(** the messages [verify_values] logs; the [log_error_and_exit] ones end it *)
Inductive log_entry :=
| ErrorRowMasks
| ErrorColMasks
| ErrorBankRange (banks_cnt : Z)
| WarnTestMaxRows (test_max_rows : Z)
| ErrorInitSizes.

(** [__builtin_clzll]; undefined on 0 in C++, modelled with the [lzcnt]
    result 64 *)
Definition count_leading_zero_bits (x : Z) : Z :=
  if x =? 0 then 64 else 63 - Z.log2 x.

(** [Config::verify_masks] *)
Definition verify_masks (masks : list Z) : bool :=
  forallb (fun mask =>
    count_leading_zero_bits mask + count_one_bits mask + count_trailing_zero_bits mask =? 64)
    masks.

(** [DRAMLayout::get_banks_cnt]: the [int] [1 << h_fns.size()] *)
Definition get_banks_cnt (l : DRAMLayout) : Z :=
  int_to_u64 (int_shl1 (Z.of_nat (length (h_fns l)))).

(** [const uint64_t test_max_rows_lb = test_min_rows + row_padding * 2];
    [row_padding * 2] is computed in [uint32_t] *)
Definition test_max_rows_lb (c : Config) : Z :=
  u64 (test_min_rows c + (row_padding c * 2) mod 2 ^ 32).

Definition set_banks (c : Config) (b : list Z) : Config :=
  mkConfig (dram_layout c) (aggressor_rows c) b (row_padding c) (hammer_pattern c)
    (victim_init c) (aggressor_init c) (test_min_rows c) (test_max_rows c).

Definition set_test_max_rows (c : Config) (t : Z) : Config :=
  mkConfig (dram_layout c) (aggressor_rows c) (banks c) (row_padding c) (hammer_pattern c)
    (victim_init c) (aggressor_init c) (test_min_rows c) t.

Definition set_hammer_pattern (c : Config) (p : HammerPattern) (ar : Z) : Config :=
  mkConfig (dram_layout c) ar (banks c) (row_padding c) p
    (victim_init c) (aggressor_init c) (test_min_rows c) (test_max_rows c).

Definition set_aggressor_init (c : Config) (a : list Z) : Config :=
  mkConfig (dram_layout c) (aggressor_rows c) (banks c) (row_padding c) (hammer_pattern c)
    (victim_init c) a (test_min_rows c) (test_max_rows c).

(** the [// banks] step: [None] is the [log_error_and_exit] *)
Definition step_banks (c : Config) : option Config :=
  let banks_cnt := get_banks_cnt (dram_layout c) in
  match banks c with
  | [] => Some (set_banks c (map Z.of_nat (seq 0 (Z.to_nat banks_cnt))))
  | bs => if existsb (fun b => banks_cnt <=? b) bs then None else Some c
  end.

(** the [// test_max_rows] step *)
Definition step_test_max_rows (c : Config) : list log_entry * Config :=
  let lb := test_max_rows_lb c in
  if (0 <? test_max_rows c) && (test_max_rows c <? lb)
  then ([WarnTestMaxRows lb], set_test_max_rows c lb)
  else ([], c).

(** the [// aggressor_init] step *)
Definition step_aggressor_init (c : Config) : Config :=
  match aggressor_init c with
  | [] => set_aggressor_init c (map lnot64 (victim_init c))
  | _ => c
  end.

Section Verify.
(** [HammerPattern(description, aggressor_rows)] (hammer_pattern.cpp, not
    among the sources): the bits it builds and the [aggressor_rows] it
    writes back through its reference argument *)
Variable make_pattern : String.string -> Z -> list bool * Z.

(** the [// hammer_pattern] step *)
Definition step_hammer_pattern (c : Config) : Config :=
  match pattern_bits (hammer_pattern c) with
  | [] =>
      let d := description (hammer_pattern c) in
      let '(bs, ar) := make_pattern d (aggressor_rows c) in
      set_hammer_pattern c (mkPattern d bs) ar
  | _ => c
  end.

(** [Config::verify_values] (without the [USE_DB] part): the log and the
    verified configuration, [None] when it exits *)
Definition verify_values (c : Config) : list log_entry * option Config :=
  if negb (verify_masks (row_masks (dram_layout c))) then ([ErrorRowMasks], None)
  else if negb (verify_masks (col_masks (dram_layout c))) then ([ErrorColMasks], None)
  else match step_banks c with
  | None => ([ErrorBankRange (get_banks_cnt (dram_layout c))], None)
  | Some c1 =>
      let '(log, c2) := step_test_max_rows c1 in
      let c4 := step_aggressor_init (step_hammer_pattern c2) in
      if negb (Nat.eqb (length (victim_init c4)) (length (aggressor_init c4)))
      then (log ++ [ErrorInitSizes], None)
      else (log, Some c4)
  end.
End Verify.

(** the defaults of config.h *)
Definition default_config : Config :=
  mkConfig example_layout 24 [] 10 (mkPattern "va" [])
    [0; lnot64 0] [lnot64 0; 0] (24 * 2 + 1) 0.

End Config.

(** ** Row bounds of the noncontiguous flip finder (noncontiguous_flip_finder.cpp) *)
Module RowBounds.
Import Dram PageFinder.

(** [PhysPageFinder::contains]: [pagemap.contains(phys_page)] converts the
    [page_t] to the [uint32_t] key of the map *)
Definition contains (m : pagemap_t) (phys_page : Z) : bool :=
  match map_find (phys_page mod 2 ^ 32) m with Some _ => true | None => false end.

(** [FlipFinder::page_2_phys] *)
Definition page_2_phys (page : Z) : Z := u64 (Z.shiftl page 12).

Section WithLayout.
Variable L : DRAMLayout.

(** the upward scan of [get_row_bounds], [p] from [first_page] to
    [last_page]; [UINT64_MAX] when no page of [bank] is found *)
Fixpoint first_row_loop (m : pagemap_t) (bank_ p last_page : Z) (fuel : nat) : Z :=
  match fuel with
  | O => 2 ^ 64 - 1
  | S fuel' =>
      if p <=? last_page then
        if contains m p then
          let dram := of_phys L (page_2_phys p) in
          if bank dram =? bank_ then row dram else first_row_loop m bank_ (p + 1) last_page fuel'
        else first_row_loop m bank_ (p + 1) last_page fuel'
      else 2 ^ 64 - 1
  end.

(** the downward scan [for (page_t p = last_page; p-- > 0;)]: [p] is the
    value before the test [p-- > 0]; 0 when no page of [bank] is found *)
Fixpoint last_row_loop (m : pagemap_t) (bank_ p : Z) (fuel : nat) : Z :=
  match fuel with
  | O => 0
  | S fuel' =>
      if 0 <? p then
        if contains m (p - 1) then
          let dram := of_phys L (page_2_phys (p - 1)) in
          if bank dram =? bank_ then row dram else last_row_loop m bank_ (p - 1) fuel'
        else last_row_loop m bank_ (p - 1) fuel'
      else 0
  end.

(** [NoncontiguousFlipFinder::get_row_bounds] for page numbers below
    [2^64 - 1]; [None] is the failed [assert(last_row >= first_row)] *)
Definition get_row_bounds (m : pagemap_t) (test_first_row test_last_row bank_ first_page last_page : Z)
  : option (Z * Z) :=
  let first_row0 := first_row_loop m bank_ first_page last_page
                      (Z.to_nat (last_page - first_page + 1)) in
  let last_row0 := last_row_loop m bank_ last_page (S (Z.to_nat last_page)) in
  let first_row := if test_first_row =? 0 then first_row0 else Z.max first_row0 test_first_row in
  let last_row := if test_last_row =? 0 then last_row0 else Z.min last_row0 test_last_row in
  if first_row <=? last_row then Some (first_row, last_row) else None.

End WithLayout.
End RowBounds.

(** * Properties *)

(** ** Bit-level facts about the machine operations *)
Module BitFacts.

Definition hi0 (x : Z) : Prop := forall j, 64 <= j -> Z.testbit x j = false.

Lemma hi0_of_range x : 0 <= x < 2 ^ 64 -> hi0 x.
Proof.
  intros Hx j Hj. rewrite <- (Z.mod_small x (2 ^ 64)) by lia.
  rewrite Z.testbit_mod_pow2 by lia.
  replace (j <? 64) with false by (symmetry; apply Z.ltb_ge; lia). reflexivity.
Qed.

Lemma u64_id x : hi0 x -> u64 x = x.
Proof.
  intros H. unfold u64. apply Z.bits_inj'. intros j Hj.
  rewrite Z.testbit_mod_pow2 by lia.
  destruct (Z.ltb_spec j 64); simpl; [reflexivity|]. symmetry; apply H; lia.
Qed.

Lemma testbit_shifted_ones n o j :
  0 <= n -> 0 <= o -> 0 <= j ->
  Z.testbit (Z.shiftl (Z.ones n) o) j = (o <=? j) && (j <? o + n).
Proof.
  intros Hn Ho Hj. rewrite Z.shiftl_spec by lia. rewrite Z.testbit_ones by lia.
  destruct (Z.leb_spec 0 (j - o)), (Z.leb_spec o j), (Z.ltb_spec (j - o) n),
    (Z.ltb_spec j (o + n)); simpl; try reflexivity; lia.
Qed.

Lemma hi0_shifted_ones n o : 0 <= n -> 0 <= o -> n + o <= 64 -> hi0 (Z.shiftl (Z.ones n) o).
Proof.
  intros Hn Ho Hno j Hj. rewrite testbit_shifted_ones by lia.
  destruct (Z.ltb_spec j (o + n)); [lia|]. apply andb_false_r.
Qed.

(** [count_trailing_zero_bits] *)
Lemma ctz_aux_ge fuel : forall i x, i <= ctz_aux fuel i x.
Proof.
  induction fuel as [|f IH]; intros i x; simpl; [lia|].
  destruct (Z.testbit x i); [lia|]. specialize (IH (i + 1) x); lia.
Qed.

Lemma ctz_aux_spec fuel : forall i x,
  ctz_aux fuel i x = i + Z.of_nat fuel \/ Z.testbit x (ctz_aux fuel i x) = true.
Proof.
  induction fuel as [|f IH]; intros i x; simpl; [left; lia|].
  destruct (Z.testbit x i) eqn:E; [right; exact E|].
  destruct (IH (i + 1) x) as [H|H]; [left; lia|right; exact H].
Qed.

Lemma ctz_set_bit x : count_trailing_zero_bits x < 64 ->
  0 <= count_trailing_zero_bits x /\ Z.testbit x (count_trailing_zero_bits x) = true.
Proof.
  unfold count_trailing_zero_bits. intros H. split; [apply ctz_aux_ge|].
  destruct (ctz_aux_spec 64 0 x) as [E|E]; [|exact E].
  rewrite E in H. simpl in H. lia.
Qed.

Lemma ctz_aux_shifted_ones n o (Hn : 1 <= n) (Ho : 0 <= o) :
  forall k fuel i, 0 <= i -> i + Z.of_nat k = o -> (k < fuel)%nat ->
  ctz_aux fuel i (Z.shiftl (Z.ones n) o) = o.
Proof.
  induction k as [|k IH]; intros fuel i Hi Hk Hf;
    (destruct fuel as [|fuel]; [lia|]); simpl.
  - rewrite testbit_shifted_ones by lia.
    replace ((o <=? i) && (i <? o + n)) with true; [lia|].
    symmetry; apply andb_true_iff; split; [apply Z.leb_le|apply Z.ltb_lt]; lia.
  - rewrite testbit_shifted_ones by lia.
    replace ((o <=? i) && (i <? o + n)) with false.
    + apply IH; lia.
    + symmetry. destruct (Z.leb_spec o i); [lia|reflexivity].
Qed.

Lemma ctz_shifted_ones n o : 1 <= n -> 0 <= o -> n + o <= 64 ->
  count_trailing_zero_bits (Z.shiftl (Z.ones n) o) = o.
Proof.
  intros Hn Ho Hno. unfold count_trailing_zero_bits.
  apply (ctz_aux_shifted_ones n o Hn Ho (Z.to_nat o)); lia.
Qed.

(** [count_one_bits] *)
Lemma popcount_aux_zero fuel : popcount_aux fuel 0 = 0.
Proof. induction fuel; simpl; auto. Qed.

Lemma popcount_aux_range fuel : forall x, 0 <= popcount_aux fuel x <= Z.of_nat fuel.
Proof.
  induction fuel as [|f IH]; intros x; simpl; [lia|].
  specialize (IH (Z.div2 x)). destruct (Z.odd x); lia.
Qed.

Lemma div2_shifted_ones n o : 1 <= n -> 0 <= o ->
  Z.div2 (Z.shiftl (Z.ones n) o) =
  if o =? 0 then Z.shiftl (Z.ones (n - 1)) 0 else Z.shiftl (Z.ones n) (o - 1).
Proof.
  intros Hn Ho. rewrite Z.div2_spec. apply Z.bits_inj'. intros j Hj.
  rewrite Z.shiftr_spec by lia.
  destruct (Z.eqb_spec o 0) as [->|Ho0].
  - rewrite !testbit_shifted_ones by lia.
    destruct (Z.ltb_spec (j + 1) (0 + n)), (Z.ltb_spec j (0 + (n - 1))); simpl;
      reflexivity || lia.
  - rewrite !testbit_shifted_ones by lia.
    destruct (Z.leb_spec o (j + 1)), (Z.leb_spec (o - 1) j),
      (Z.ltb_spec (j + 1) (o + n)), (Z.ltb_spec j (o - 1 + n)); simpl;
      reflexivity || lia.
Qed.

Lemma popcount_aux_shifted_ones fuel : forall n o,
  0 <= n -> 0 <= o -> n + o <= Z.of_nat fuel ->
  popcount_aux fuel (Z.shiftl (Z.ones n) o) = n.
Proof.
  induction fuel as [|f IH]; intros n o Hn Ho Hf.
  - simpl. lia.
  - destruct (Z.eqb_spec n 0) as [->|Hn0].
    + simpl Z.ones. rewrite Z.shiftl_0_l. apply popcount_aux_zero.
    + simpl popcount_aux. rewrite div2_shifted_ones by lia.
      rewrite <- Z.bit0_odd, testbit_shifted_ones by lia.
      destruct (Z.eqb_spec o 0) as [->|Ho0].
      * rewrite IH by lia.
        replace ((0 <=? 0) && (0 <? 0 + n)) with true; [lia|].
        symmetry; apply andb_true_iff; split; [apply Z.leb_le|apply Z.ltb_lt]; lia.
      * rewrite IH by lia.
        replace ((o <=? 0) && (0 <? o + n)) with false; [lia|].
        symmetry. destruct (Z.leb_spec o 0); [lia|reflexivity].
Qed.

Lemma popcount_shifted_ones n o : 0 <= n -> 0 <= o -> n + o <= 64 ->
  count_one_bits (Z.shiftl (Z.ones n) o) = n.
Proof. intros. apply popcount_aux_shifted_ones; simpl; lia. Qed.

Lemma popcount_aux_lor_disjoint fuel : forall a b, Z.land a b = 0 ->
  popcount_aux fuel (Z.lor a b) = popcount_aux fuel a + popcount_aux fuel b.
Proof.
  induction fuel as [|f IH]; intros a b Hab; simpl; [reflexivity|].
  assert (Hd : Z.div2 (Z.lor a b) = Z.lor (Z.div2 a) (Z.div2 b)).
  { rewrite !Z.div2_spec. apply Z.shiftr_lor. }
  assert (Hd0 : Z.land (Z.div2 a) (Z.div2 b) = 0).
  { rewrite !Z.div2_spec, <- Z.shiftr_land, Hab. reflexivity. }
  assert (H0 : Z.testbit a 0 && Z.testbit b 0 = false).
  { rewrite <- Z.land_spec, Hab. apply Z.testbit_0_l. }
  rewrite Hd, IH by exact Hd0.
  rewrite <- !Z.bit0_odd, Z.lor_spec.
  destruct (Z.testbit a 0), (Z.testbit b 0); cbn [orb andb] in *; try discriminate; ring.
Qed.

End BitFacts.

(** ** Facts about the DRAM address model *)
Module DramFacts.
Import BitFacts Dram.

Lemma testbit_or_all ms j :
  Z.testbit (or_all ms) j = existsb (fun m => Z.testbit m j) ms.
Proof.
  induction ms as [|m ms IH]; simpl; [apply Z.testbit_0_l|].
  rewrite Z.lor_spec, IH. reflexivity.
Qed.

Lemma land_or_all_disjoint a ms :
  Forall (fun b => Z.land a b = 0) ms -> Z.land a (or_all ms) = 0.
Proof.
  induction 1 as [|m ms Hm _ IH]; simpl; [apply Z.land_0_r|].
  rewrite Z.land_lor_distr_r, Hm, IH. reflexivity.
Qed.

Lemma width_popcount ms :
  ForallOrdPairs (fun a b => Z.land a b = 0) ms -> width ms = count_one_bits (or_all ms).
Proof.
  induction 1 as [|m ms Hm _ IH]; simpl; [reflexivity|].
  unfold count_one_bits in *. rewrite popcount_aux_lor_disjoint.
  - rewrite IH. reflexivity.
  - apply land_or_all_disjoint. exact Hm.
Qed.

Lemma width_range ms :
  ForallOrdPairs (fun a b => Z.land a b = 0) ms -> 0 <= width ms <= 64.
Proof.
  intros H. rewrite width_popcount by exact H. apply (popcount_aux_range 64).
Qed.

Lemma width_nonneg ms : 0 <= width ms.
Proof.
  induction ms as [|m ms IH]; simpl; [lia|].
  pose proof (popcount_aux_range 64 m). unfold count_one_bits. lia.
Qed.

Lemma mask_ok_weaken k k' m : k <= k' -> mask_ok k m -> mask_ok k' m.
Proof. intros Hk (n & o & Hn & Ho & Hno & ->). exists n, o. repeat split; lia. Qed.

Lemma masks_ok_64 ms : masks_ok ms -> Forall (mask_ok 64) ms.
Proof.
  intros [_ H]. eapply Forall_impl; [|exact H].
  intros m. apply mask_ok_weaken. destruct (Nat.eqb _ _); lia.
Qed.

Lemma slice_mod p n o : 0 <= n -> 0 <= o ->
  Z.shiftr (Z.land p (Z.shiftl (Z.ones n) o)) o = Z.shiftr p o mod 2 ^ n.
Proof.
  intros Hn Ho. apply Z.bits_inj'. intros j Hj.
  rewrite Z.testbit_mod_pow2, !Z.shiftr_spec, Z.land_spec, testbit_shifted_ones by lia.
  destruct (Z.leb_spec o (j + o)), (Z.ltb_spec (j + o) (o + n)), (Z.ltb_spec j n);
    simpl; rewrite ?andb_true_r, ?andb_false_r; reflexivity || lia.
Qed.

Lemma slice_range p n o : 0 <= n -> 0 <= o ->
  0 <= Z.shiftr (Z.land p (Z.shiftl (Z.ones n) o)) o < 2 ^ n.
Proof. intros. rewrite slice_mod by lia. apply Z.mod_pos_bound. lia. Qed.

Lemma slice_back p n o : 0 <= n -> 0 <= o ->
  Z.shiftl (Z.shiftr (Z.land p (Z.shiftl (Z.ones n) o)) o) o = Z.land p (Z.shiftl (Z.ones n) o).
Proof.
  intros Hn Ho. apply Z.bits_inj'. intros j Hj.
  rewrite Z.shiftl_spec by lia.
  destruct (Z.leb_spec o j).
  - rewrite Z.shiftr_spec by lia. f_equal. lia.
  - rewrite Z.testbit_neg_r by lia. rewrite Z.land_spec, testbit_shifted_ones by lia.
    destruct (Z.leb_spec o j); [lia|]. rewrite andb_false_r. reflexivity.
Qed.

Lemma extract_range p ms : Forall (mask_ok 64) ms ->
  0 <= extract p ms < 2 ^ width ms.
Proof.
  induction 1 as [|m ms Hm _ IH]; simpl; [lia|].
  destruct Hm as (n & o & Hn & Ho & Hno & ->).
  rewrite ctz_shifted_ones, popcount_shifted_ones by lia.
  pose proof (slice_range p n o ltac:(lia) Ho) as Hs.
  rewrite (Z.shiftl_mul_pow2 (extract p ms)) by lia.
  pose proof (width_nonneg ms).
  rewrite Z.pow_add_r by lia.
  assert (extract p ms * 2 ^ n <= (2 ^ width ms - 1) * 2 ^ n)
    by (apply Z.mul_le_mono_nonneg_r; lia).
  nia.
Qed.

Lemma field_loop_extract p ms : Forall (mask_ok 64) ms ->
  forall off acc, 0 <= off -> off + width ms <= 64 -> 0 <= acc < 2 ^ off ->
  field_loop p ms off acc = acc + extract p ms * 2 ^ off.
Proof.
  induction 1 as [|m ms Hm Hms IH]; intros off acc Hoff Hw Hacc; simpl in *; [lia|].
  destruct Hm as (n & o & Hn & Ho & Hno & ->).
  rewrite ctz_shifted_ones, popcount_shifted_ones in * by lia.
  pose proof (slice_range p n o ltac:(lia) Ho) as Hs.
  pose proof (extract_range p ms Hms) as He.
  set (s := Z.shiftr (Z.land p (Z.shiftl (Z.ones n) o)) o) in *.
  set (E := extract p ms) in *.
  pose proof (width_nonneg ms) as Hwms.
  assert (HA : 0 < 2 ^ off) by (apply Z.pow_pos_nonneg; lia).
  assert (HB : 2 ^ (off + n) = 2 ^ off * 2 ^ n) by (apply Z.pow_add_r; lia).
  assert (H64 : 2 ^ (off + n) <= 2 ^ 64) by (apply Z.pow_le_mono_r; lia).
  rewrite Z.shiftl_mul_pow2 by lia.
  unfold u64.
  rewrite (Z.mod_small (s * 2 ^ off)) by nia.
  rewrite (Z.mod_small (acc + s * 2 ^ off)) by nia.
  rewrite (Z.mod_small (off + n)) by lia.
  rewrite IH by nia.
  rewrite Z.shiftl_mul_pow2 by lia.
  rewrite Z.pow_add_r by lia. ring.
Qed.

Lemma get_field_extract ms p : masks_ok ms -> get_field ms p = extract p ms.
Proof.
  intros Hok. pose proof (masks_ok_64 ms Hok) as H64.
  pose proof (width_range ms (proj1 Hok)) as Hw.
  destruct ms as [|m [|m' ms]].
  - reflexivity.
  - simpl. rewrite Z.shiftl_0_l. ring.
  - unfold get_field. rewrite field_loop_extract; [simpl; ring|exact H64|lia|lia|simpl; lia].
Qed.

Lemma int_low_mask n : 1 <= n <= 31 -> int_to_u64 (to_int32 (int_shl1 n - 1)) = Z.ones n.
Proof.
  intros Hn. replace n with (Z.of_nat (Z.to_nat (n - 1)) + 1) by lia.
  assert (Hk : (Z.to_nat (n - 1) < 31)%nat) by lia.
  remember (Z.to_nat (n - 1)) as k eqn:Ek. clear Ek Hn.
  do 31 (destruct k as [|k]; [reflexivity|]). lia.
Qed.

Lemma int_bit k : 0 <= k < 31 -> int_to_u64 (int_shl1 k) = 2 ^ k.
Proof.
  intros Hk0. replace k with (Z.of_nat (Z.to_nat k)) by lia.
  assert (Hk : (Z.to_nat k < 31)%nat) by lia.
  remember (Z.to_nat k) as k' eqn:Ek. clear Ek Hk0.
  do 31 (destruct k' as [|k']; [reflexivity|]). lia.
Qed.

Lemma mask_ok_hi0 k m : mask_ok k m -> hi0 m.
Proof. intros (n & o & Hn & Ho & Hno & ->). apply hi0_shifted_ones; lia. Qed.

Lemma hi0_land_r a m : hi0 m -> hi0 (Z.land a m).
Proof. intros H j Hj. rewrite Z.land_spec, H by exact Hj. apply andb_false_r. Qed.

Lemma hi0_lor a b : hi0 a -> hi0 b -> hi0 (Z.lor a b).
Proof. intros Ha Hb j Hj. rewrite Z.lor_spec, Ha, Hb by exact Hj. reflexivity. Qed.

Lemma single_place p m : mask_ok 64 m ->
  u64 (Z.shiftl (Z.shiftr (Z.land p m) (count_trailing_zero_bits m)) (count_trailing_zero_bits m))
  = Z.land p m.
Proof.
  intros Hm. pose proof (mask_ok_hi0 _ _ Hm) as Hhi.
  destruct Hm as (n & o & Hn & Ho & Hno & ->).
  rewrite ctz_shifted_ones, slice_back by lia.
  apply u64_id, hi0_land_r. exact Hhi.
Qed.

Lemma place_loop_extract p ms : Forall (mask_ok 31) ms ->
  forall acc, fst (place_loop (extract p ms) ms acc) = Z.lor acc (Z.land p (or_all ms)).
Proof.
  induction 1 as [|m ms Hm Hms IH]; intros acc.
  - simpl. rewrite Z.land_0_r, Z.lor_0_r. reflexivity.
  - assert (Hm64 : mask_ok 64 m) by (eapply mask_ok_weaken; [|exact Hm]; lia).
    pose proof (single_place p m Hm64) as Hsp.
    destruct Hm as (n & o & Hn & Ho & Hno & ->).
    simpl extract. simpl place_loop. simpl or_all.
    rewrite ctz_shifted_ones, popcount_shifted_ones in * by lia.
    unfold pop_least_significant_bits. rewrite int_low_mask by lia.
    pose proof (slice_range p n o ltac:(lia) Ho) as Hs.
    set (s := Z.shiftr (Z.land p (Z.shiftl (Z.ones n) o)) o) in *.
    rewrite (Z.shiftl_mul_pow2 (extract p ms)) by lia.
    rewrite Z.land_ones, Z.shiftr_div_pow2 by lia.
    rewrite Z_mod_plus_full, Z.mod_small by lia.
    rewrite Z.div_add by (pose proof (Z.pow_pos_nonneg 2 n); lia).
    rewrite Z.div_small by lia. rewrite Z.add_0_l.
    lazy beta iota. rewrite Hsp, IH.
    rewrite Z.land_lor_distr_r, Z.lor_assoc. reflexivity.
Qed.

Lemma place_col_ok p ms acc : masks_ok ms ->
  place_col ms (get_field ms p) acc = Z.lor acc (Z.land p (or_all ms)).
Proof.
  intros Hok. rewrite get_field_extract by exact Hok.
  pose proof (masks_ok_64 ms Hok) as H64.
  destruct Hok as [_ Hf].
  destruct ms as [|m [|m' ms]].
  - simpl. rewrite Z.land_0_r, Z.lor_0_r. reflexivity.
  - inversion H64 as [|? ? Hm _]; subst.
    simpl place_col. simpl extract. simpl or_all.
    rewrite Z.shiftl_0_l, Z.add_0_r, Z.lor_0_r, single_place by exact Hm.
    reflexivity.
  - apply place_loop_extract. exact Hf.
Qed.

Lemma place_row_ok p ms : masks_ok ms ->
  place_row ms (get_field ms p) = Z.land p (or_all ms).
Proof.
  intros Hok. pose proof (place_col_ok p ms 0 Hok) as H.
  rewrite Z.lor_0_l in H. rewrite <- H.
  destruct ms as [|m [|m' ms]]; reflexivity.
Qed.

Lemma accumulate_or_aux ms :
  ForallOrdPairs (fun a b => Z.land a b = 0) ms -> Forall (mask_ok 64) ms ->
  forall a, hi0 a -> Forall (fun m => Z.land a m = 0) ms ->
  fold_left (fun a m => u64 (a + m)) ms a = Z.lor a (or_all ms).
Proof.
  induction 1 as [|m ms Hm Hms IH]; intros Hok a Ha Hdis; simpl.
  - rewrite Z.lor_0_r. reflexivity.
  - inversion Hok as [|? ? Hm64 Hok']; subst.
    inversion Hdis as [|? ? Ham Hdis']; subst.
    assert (Hhi : hi0 (Z.lor a m)) by (apply hi0_lor; [exact Ha|eapply mask_ok_hi0; exact Hm64]).
    rewrite Z.add_nocarry_lxor, Z.lxor_lor by exact Ham.
    rewrite u64_id by exact Hhi.
    rewrite IH; [rewrite Z.lor_assoc; reflexivity|exact Hok'|exact Hhi|].
    apply Forall_forall. intros b Hb.
    rewrite Z.land_lor_distr_l.
    rewrite (proj1 (Forall_forall _ _) Hdis' b Hb), (proj1 (Forall_forall _ _) Hm b Hb).
    reflexivity.
Qed.

Lemma accumulate_or ms : masks_ok ms -> accumulate ms = or_all ms.
Proof.
  intros Hok. unfold accumulate.
  rewrite accumulate_or_aux; [apply Z.lor_0_l|exact (proj1 Hok)|apply masks_ok_64, Hok| |].
  - intros j _. apply Z.testbit_0_l.
  - apply Forall_forall. intros. apply Z.land_0_l.
Qed.

Lemma fix_loop_outside bnk fs nr nc :
  Forall (fun f => Z.land (Z.land f nc) nr = f /\ count_trailing_zero_bits f < 31) fs ->
  forall i q j, 0 <= j -> Forall (fun f => Z.testbit f j = false) fs ->
  Z.testbit (fix_loop bnk fs i nr nc q) j = Z.testbit q j.
Proof.
  induction 1 as [|f fs [Hf Hc] _ IH]; intros i q j Hj Hout; simpl; [reflexivity|].
  inversion Hout as [|? ? Hfj Hout']; subst.
  rewrite IH by assumption.
  destruct (xor_bits q f =? Z.land (Z.shiftr bnk i) 1); [reflexivity|].
  rewrite Hf. destruct (ctz_set_bit f ltac:(lia)) as [Hc0 Hbit].
  rewrite int_bit by lia. rewrite Z.lxor_spec, Z.pow2_bits_eqb by lia.
  destruct (Z.eqb_spec (count_trailing_zero_bits f) j) as [E|E].
  - rewrite E in Hbit. congruence.
  - apply xorb_false_r.
Qed.

Lemma fn_outside_masks L f :
  0 <= f < 2 ^ 64 -> Forall (fun m => Z.land f m = 0) (row_masks L ++ col_masks L) ->
  Z.land (Z.land f (lnot64 (or_all (col_masks L)))) (lnot64 (or_all (row_masks L))) = f.
Proof.
  intros Hf Hdis. apply Forall_app in Hdis as [Hr Hc].
  pose proof (land_or_all_disjoint _ _ Hr) as HR.
  pose proof (land_or_all_disjoint _ _ Hc) as HC.
  apply Z.bits_inj'. intros j Hj. unfold lnot64.
  rewrite !Z.land_spec, !Z.lxor_spec, Z.testbit_ones_nonneg by lia.
  destruct (Z.testbit f j) eqn:Ef; [|reflexivity].
  assert (Hj64 : j < 64).
  { destruct (Z.ltb_spec j 64); [lia|]. rewrite (hi0_of_range f Hf j) in Ef by lia. discriminate. }
  assert (Z.testbit (or_all (row_masks L)) j = false).
  { pose proof (f_equal (fun x => Z.testbit x j) HR) as E. simpl in E.
    rewrite Z.land_spec, Ef, Z.testbit_0_l in E. exact E. }
  assert (Z.testbit (or_all (col_masks L)) j = false).
  { pose proof (f_equal (fun x => Z.testbit x j) HC) as E. simpl in E.
    rewrite Z.land_spec, Ef, Z.testbit_0_l in E. exact E. }
  replace (j <? 64) with true by (symmetry; apply Z.ltb_lt; lia).
  rewrite H, H0. reflexivity.
Qed.

(** C1 (amended): for well-formed masks ([Config::verify_masks], pairwise
    disjoint, at most 31 bits per mask when there are several) and [h_fns]
    below 2^64 sharing no bit with a row or column mask and with their
    lowest bit under 31, and [p] with only row, column and [h_fn] bits
    set, [DRAMAddr(p).phys()] agrees with [p] on every bit that is in no
    [h_fn]: the row and column bits come back, the [h_fn] bits may not *)
Lemma phys_of_phys_keeps_rc L p :
  masks_ok (row_masks L) -> masks_ok (col_masks L) ->
  Forall (fun h => 0 <= h < 2 ^ 64 /\ count_trailing_zero_bits h < 31 /\
                   Forall (fun m => Z.land h m = 0) (row_masks L ++ col_masks L)) (h_fns L) ->
  Z.land p (Z.lnot (or_all (row_masks L ++ col_masks L ++ h_fns L))) = 0 ->
  forall j, 0 <= j -> Forall (fun h => Z.testbit h j = false) (h_fns L) ->
  Z.testbit (phys L (of_phys L p)) j = Z.testbit p j.
Proof.
  intros Hr Hc Hf Hbits j Hj Hout.
  unfold phys, of_phys. cbn [row col bank]. unfold get_dram_row, get_dram_col.
  rewrite place_row_ok, place_col_ok, !accumulate_or by assumption.
  rewrite fix_loop_outside; [| |exact Hj|exact Hout].
  - rewrite Z.lor_spec, !Z.land_spec.
    pose proof (f_equal (fun x => Z.testbit x j) Hbits) as E. simpl in E.
    rewrite Z.land_spec, Z.lnot_spec, Z.testbit_0_l, !testbit_or_all, !existsb_app in E by exact Hj.
    assert (Hh : existsb (fun m => Z.testbit m j) (h_fns L) = false).
    { apply Bool.not_true_iff_false. intros Ht. apply existsb_exists in Ht as (h & Hin & Hb).
      rewrite (proj1 (Forall_forall _ _) Hout h Hin) in Hb. discriminate. }
    rewrite Hh, orb_false_r in E. rewrite !testbit_or_all.
    destruct (Z.testbit p j); simpl in *; [|reflexivity].
    destruct (existsb _ (row_masks L)), (existsb _ (col_masks L)); simpl in *;
      reflexivity || discriminate.
  - eapply Forall_impl; [|exact Hf]. intros h (Hh & Hct & Hdis). split; [|exact Hct].
    apply fn_outside_masks; assumption.
Qed.

End DramFacts.

Module DramClaims.
Import BitFacts Dram DramFacts.

Ltac solve_mask n o := exists n, o; cbn; repeat split; lia || reflexivity.

(** C1: with [h_fns = [0x6000]], [row_masks = [0xffff8000]] and
    [col_masks = [0x1fff]] the [h_fn] shares no bit with a mask and
    [p = 0x4000] has only an [h_fn] bit set, yet [DRAMAddr(p).phys()] is
    [0x2000]: [phys()] fixes the parity by flipping the lowest [h_fn] bit,
    bit 13, not bit 14 *)
Lemma roundtrip_counterexample :
  let L := mkLayout [0x6000] [0xffff8000] [0x1fff] in
  let p := 0x4000 in
  masks_ok (row_masks L) /\ masks_ok (col_masks L) /\
  Forall (fun h => Forall (fun m => Z.land h m = 0) (row_masks L ++ col_masks L)) (h_fns L) /\
  Z.land p (Z.lnot (or_all (row_masks L ++ col_masks L ++ h_fns L))) = 0 /\
  phys L (of_phys L p) = 0x2000 /\ phys L (of_phys L p) <> p.
Proof.
  cbn zeta. split; [|split; [|split; [|split; [|split]]]].
  - split; [repeat constructor|constructor; [solve_mask 17 15|constructor]].
  - split; [repeat constructor|constructor; [solve_mask 13 0|constructor]].
  - repeat constructor.
  - reflexivity.
  - vm_compute. reflexivity.
  - vm_compute. discriminate.
Qed.

Lemma phys_of_phys_keeps_rc_witness :
  Z.testbit (phys (mkLayout [0x6000] [0xffff8000] [0x1fff])
               (of_phys (mkLayout [0x6000] [0xffff8000] [0x1fff]) 0xc005)) 15
  = Z.testbit 0xc005 15.
Proof.
  apply (phys_of_phys_keeps_rc (mkLayout [0x6000] [0xffff8000] [0x1fff]) 0xc005).
  - split; [repeat constructor|constructor; [solve_mask 17 15|constructor]].
  - split; [repeat constructor|constructor; [solve_mask 13 0|constructor]].
  - repeat constructor; vm_compute; reflexivity || discriminate.
  - vm_compute. reflexivity.
  - lia.
  - repeat constructor.
Defined.

(** C2: in the example layout, [DRAMAddr(0x12345000)] is
    [(bank 9, row 0x48d, col 0)] and [DRAMAddr(9, 0x48d, 0).phys()] is
    [0x12345000]; but the constructor gives bank 24 and column 0x1000, and
    [DRAMAddr(9, 0x48d, 0).phys()] is [0x12366000] *)
Lemma example_layout_counterexample :
  of_phys example_layout 0x12345000 = mkDRAMAddr 24 0x48d 0x1000 /\
  of_phys example_layout 0x12345000 <> mkDRAMAddr 9 0x48d 0 /\
  phys example_layout (mkDRAMAddr 9 0x48d 0) = 0x12366000.
Proof.
  split; [|split].
  - vm_compute. reflexivity.
  - vm_compute. discriminate.
  - vm_compute. reflexivity.
Qed.

(** C2 (amended): in the example layout [DRAMAddr(0x12345000)] is
    [(bank 24, row 0x48d, col 0x1000)], and [phys()] of that address gives
    [0x12345000] back *)
Lemma example_layout_roundtrip :
  of_phys example_layout 0x12345000 = mkDRAMAddr 24 0x48d 0x1000 /\
  phys example_layout (mkDRAMAddr 24 0x48d 0x1000) = 0x12345000.
Proof. split; vm_compute; reflexivity. Qed.

End DramClaims.

Module FlipperFacts.
Import PageFinder BitFlipper.

Lemma find_page_found f p v :
  fst (find_page f p v) = fst (find_page f p 0).
Proof. unfold find_page. destruct (map_find _ _); reflexivity. Qed.

(** a [find_pages] loop reports the conjunction of the lookups and writes
    every entry whose lookup succeeds *)
Lemma find_loop_spec f ps : forall vs found, length ps = length vs ->
  find_loop f found ps vs =
    (found && forallb (fun p => fst (find_page f p 0)) ps,
     map (fun '(p, v) => snd (find_page f p v)) (combine ps vs)).
Proof.
  induction ps as [|p ps IH]; intros [|v vs] found Hl; simpl in *; try discriminate.
  - rewrite andb_true_r. reflexivity.
  - injection Hl as Hl.
    rewrite (surjective_pairing (find_page f p v)), (find_page_found f p v).
    rewrite IH by exact Hl. rewrite andb_assoc. reflexivity.
Qed.

(** [(x >> b) & 1] is bit [b] of [x] *)
Lemma land_shiftr_1 x b : 0 <= b -> Z.land (Z.shiftr x b) 1 = Z.b2z (Z.testbit x b).
Proof.
  intros Hb. rewrite (Z.land_ones _ 1) by lia.
  rewrite Z.shiftr_div_pow2 by exact Hb. rewrite Z.testbit_spec' by exact Hb.
  reflexivity.
Qed.

Lemma b2z_eqb a c : (Z.b2z a =? Z.b2z c) = Bool.eqb a c.
Proof. destruct a, c; reflexivity. Qed.

(** the number of flips of the bit loop is the number of differing bits *)
Lemma bit_loop_length victim off w init fuel : forall b, 0 <= b ->
  Z.of_nat (length (bit_loop victim off w init b fuel))
  = popcount_aux fuel (Z.shiftr (Z.lxor w init) b).
Proof.
  induction fuel as [|fuel IH]; intros b Hb; [reflexivity|].
  cbn [bit_loop popcount_aux].
  rewrite !land_shiftr_1, b2z_eqb by exact Hb.
  assert (Hodd : Z.odd (Z.shiftr (Z.lxor w init) b) = xorb (Z.testbit w b) (Z.testbit init b)).
  { rewrite <- Z.bit0_odd, Z.shiftr_spec, Z.lxor_spec by lia; reflexivity. }
  assert (Hdiv : Z.div2 (Z.shiftr (Z.lxor w init) b) = Z.shiftr (Z.lxor w init) (b + 1)).
  { rewrite Z.div2_spec, Z.shiftr_shiftr by lia; f_equal; lia. }
  rewrite Hodd, Hdiv, <- IH by lia.
  destruct (Z.testbit w b), (Z.testbit init b);
    cbn [xorb negb Bool.eqb length]; rewrite ?Nat2Z.inj_succ; lia.
Qed.

(** what each event of the bit loop carries *)
Definition event_of (victim off w init : Z) (e : BitFlip) (bit : Z) : Prop :=
  Z.testbit (Z.lxor w init) bit = true /\
  flips_to e = Z.land (Z.shiftr w bit) 1 /\
  victim_phys e = u64 (victim + off + bit / 8) /\
  victim_bit e = bit mod 8.

Lemma bit_loop_events victim off w init fuel : forall b, 0 <= b ->
  Forall (fun e => exists bit, b <= bit < b + Z.of_nat fuel /\ event_of victim off w init e bit)
    (bit_loop victim off w init b fuel).
Proof.
  induction fuel as [|fuel IH]; intros b Hb; [constructor|].
  cbn [bit_loop].
  assert (Hrest : Forall (fun e => exists bit, b <= bit < b + Z.of_nat (S fuel) /\
                                      event_of victim off w init e bit)
                    (bit_loop victim off w init (b + 1) fuel)).
  { eapply Forall_impl; [|apply IH; lia]. intros e (bit & Hr & He).
    exists bit. split; [lia|exact He]. }
  destruct (Z.land (Z.shiftr init b) 1 =? Z.land (Z.shiftr w b) 1) eqn:E; [exact Hrest|].
  constructor; [|exact Hrest].
  exists b. split; [lia|]. unfold event_of. cbn [flips_to victim_phys victim_bit].
  repeat split. rewrite Z.lxor_spec.
  rewrite !land_shiftr_1, b2z_eqb in E by exact Hb.
  destruct (Z.testbit w b), (Z.testbit init b); simpl in *; congruence.
Qed.

End FlipperFacts.

Module FlipperClaims.
Import PageFinder BitFlipper FlipperFacts.

(** C3: with the page map [{1 -> 0}] and [mem = 0], [find_page] of the
    physical address [0x1234] succeeds but gives [0x0]: the in-page offset
    [0x234] of the physical address is not in the virtual address *)
Lemma find_page_offset_counterexample :
  map_find ((0x1234 / page_size) mod 2 ^ 32) (pagemap (mkFinder 0 [(1, 0)])) = Some 0 /\
  find_page (mkFinder 0 [(1, 0)]) 0x1234 0 = (true, 0) /\
  Z.land 0 (page_size - 1) <> Z.land 0x1234 (page_size - 1).
Proof. split; [|split]; vm_compute; [reflexivity|reflexivity|discriminate]. Qed.

(** C3 (amended): when the frame number of [phys_addr] (truncated to the
    [uint32_t] key of the page map) is in the page map, [find_page]
    succeeds and returns the start of the mapped page,
    [mem + offset * page_size]; its in-page offset is the one of [mem],
    not the one of [phys_addr] *)
Lemma find_page_page_start f phys_addr virt_addr off :
  map_find ((phys_addr / page_size) mod 2 ^ 32) (pagemap f) = Some off ->
  find_page f phys_addr virt_addr = (true, u64 (mem f + u64 (off * page_size))) /\
  Z.land (snd (find_page f phys_addr virt_addr)) (page_size - 1)
    = Z.land (mem f) (page_size - 1).
Proof.
  intros H. unfold find_page. rewrite H. split; [reflexivity|]. cbn [snd].
  change (page_size - 1) with (Z.ones 12). rewrite !Z.land_ones by lia.
  unfold u64.
  rewrite <- (Z.mod_mod_divide _ (2 ^ 64)) by (try lia; exists (2 ^ 52); reflexivity).
  rewrite Z.add_mod_idemp_r by lia.
  rewrite (Z.mod_mod_divide _ (2 ^ 64)) by (try lia; exists (2 ^ 52); reflexivity).
  unfold page_size. change 4096 with (2 ^ 12).
  rewrite (Z.mod_mod_divide _ (2 ^ 64)) by (try lia; exists (2 ^ 52); reflexivity).
  apply Z_mod_plus_full.
Qed.

Lemma find_page_page_start_witness :
  find_page (mkFinder 0x7f0000000000 [(1, 5)]) 0x1234 0 = (true, 0x7f0000005000) /\
  Z.land (snd (find_page (mkFinder 0x7f0000000000 [(1, 5)]) 0x1234 0)) (page_size - 1)
    = Z.land 0x7f0000000000 (page_size - 1).
Proof.
  apply (find_page_page_start (mkFinder 0x7f0000000000 [(1, 5)]) 0x1234 0 5).
  vm_compute. reflexivity.
Defined.

(** C4: for a word [w] different from [victim_init], the scan emits
    [popcount(w ^ victim_init)] flips, one for each differing bit [bit] in
    0..63, and the direction of that flip is [(w >> bit) & 1] *)
Lemma scan_word_flips victim flip_offset_bytes w victim_init :
  w <> victim_init ->
  Z.of_nat (length (scan_word victim flip_offset_bytes w victim_init))
    = count_one_bits (Z.lxor w victim_init) /\
  Forall (fun e => exists bit, 0 <= bit < 64 /\
                      Z.testbit (Z.lxor w victim_init) bit = true /\
                      flips_to e = Z.land (Z.shiftr w bit) 1)
    (scan_word victim flip_offset_bytes w victim_init).
Proof.
  intros Hne. unfold scan_word. rewrite (proj2 (Z.eqb_neq _ _) Hne). split.
  - rewrite bit_loop_length by lia. rewrite Z.shiftr_0_r. reflexivity.
  - eapply Forall_impl; [|apply bit_loop_events; lia].
    intros e (bit & Hr & Hd & Hf & _). exists bit. cbn in Hr. split; [lia|].
    split; assumption.
Qed.

Lemma scan_word_flips_witness :
  Z.of_nat (length (scan_word 0x10000 8 0xf0 0)) = count_one_bits (Z.lxor 0xf0 0) /\
  Forall (fun e => exists bit, 0 <= bit < 64 /\
                      Z.testbit (Z.lxor 0xf0 0) bit = true /\
                      flips_to e = Z.land (Z.shiftr 0xf0 bit) 1)
    (scan_word 0x10000 8 0xf0 0).
Proof. apply (scan_word_flips 0x10000 8 0xf0 0). discriminate. Defined.

(** C5: with the page map [{1 -> 0}] at [mem = 0x100000], the aggressor
    [0x1000] is found and the victim [0x5000] is not: [find_pages] returns
    false but has already written the aggressor's virtual address *)
Lemma find_pages_partial_counterexample :
  find_pages (mkFinder 0x100000 [(1, 0)]) [0x1000] [0x5000] (new_flipper [0x1000] [0x5000])
    = (false, mkFlipper [0x100000] [0]) /\
  virt_aggs (new_flipper [0x1000] [0x5000]) = [0].
Proof. split; vm_compute; reflexivity. Qed.

(** C5 (amended): [find_pages] returns whether every aggressor and victim
    page was found, and writes the virtual address of every page that was
    found, whatever the result (the entries of the pages not found keep
    their values) *)
Lemma find_pages_spec f aggs victims st :
  length aggs = length (virt_aggs st) ->
  length victims = length (virt_victims st) ->
  find_pages f aggs victims st =
    (forallb (fun p => fst (find_page f p 0)) (aggs ++ victims),
     mkFlipper (map (fun '(p, v) => snd (find_page f p v)) (combine aggs (virt_aggs st)))
               (map (fun '(p, v) => snd (find_page f p v)) (combine victims (virt_victims st)))).
Proof.
  intros Ha Hv. unfold find_pages.
  rewrite find_loop_spec by exact Ha. rewrite find_loop_spec by exact Hv.
  rewrite forallb_app. reflexivity.
Qed.

Lemma find_pages_spec_witness :
  find_pages (mkFinder 0x100000 [(1, 0)]) [0x1000] [0x5000] (new_flipper [0x1000] [0x5000]) =
    (forallb (fun p => fst (find_page (mkFinder 0x100000 [(1, 0)]) p 0)) ([0x1000] ++ [0x5000]),
     mkFlipper (map (fun '(p, v) => snd (find_page (mkFinder 0x100000 [(1, 0)]) p v))
                  (combine [0x1000] [0]))
               (map (fun '(p, v) => snd (find_page (mkFinder 0x100000 [(1, 0)]) p v))
                  (combine [0x5000] [0]))).
Proof.
  apply (find_pages_spec (mkFinder 0x100000 [(1, 0)]) [0x1000] [0x5000]
           (new_flipper [0x1000] [0x5000])); reflexivity.
Defined.

(** C6: a flip of bit 9 of the word at offset 0 of the victim row at
    [0x10000] is reported with bit index 1 and the address [0x10001]: the
    event names a byte and a bit of that byte, not a bit index 0..63 of the
    word *)
Lemma flip_event_counterexample :
  scan_word 0x10000 0 (Z.shiftl 1 9) 0 = [mkBitFlip 0x10001 1 1].
Proof. vm_compute. reflexivity. Qed.

(** C6 (amended): every flip the scan of a word reports carries the byte
    address [victim + flip_offset_bytes + bit / 8] (in [uint64_t]), the bit
    index [bit % 8] within that byte (so in 0..7) and the direction
    [(w >> bit) & 1], for a bit [bit] in 0..63 where [w] and
    [victim_init] differ *)
Lemma scan_word_events victim flip_offset_bytes w victim_init :
  Forall (fun e => 0 <= victim_bit e < 8 /\
                   exists bit, 0 <= bit < 64 /\
                     Z.testbit (Z.lxor w victim_init) bit = true /\
                     victim_phys e = u64 (victim + flip_offset_bytes + bit / 8) /\
                     victim_bit e = bit mod 8 /\
                     flips_to e = Z.land (Z.shiftr w bit) 1)
    (scan_word victim flip_offset_bytes w victim_init).
Proof.
  unfold scan_word. destruct (w =? victim_init); [constructor|].
  eapply Forall_impl; [|apply bit_loop_events; lia].
  intros e (bit & Hr & Hd & Hf & Hp & Hb). cbn in Hr.
  split; [rewrite Hb; apply Z.mod_pos_bound; lia|].
  exists bit. repeat split; try lia; assumption.
Qed.

End FlipperClaims.

Module PatternFacts.
Import Pattern.

Lemma count_true_app a b : count_true (a ++ b) = (count_true a + count_true b)%nat.
Proof. unfold count_true. rewrite filter_app, length_app. reflexivity. Qed.

Lemma count_true_repeat_false g : count_true (repeat false g) = 0%nat.
Proof. induction g; [reflexivity|exact IHg]. Qed.

Lemma expand_period_count ts : forall fills,
  count_true (fst (expand_period ts fills)) = count_a ts.
Proof.
  unfold count_a.
  induction ts as [|t ts IH]; intros fills; [reflexivity|].
  destruct t; cbn [expand_period filter].
  - specialize (IH fills). destruct (expand_period ts fills) as [bs r]. exact IH.
  - specialize (IH fills). destruct (expand_period ts fills) as [bs r]. cbn in *. lia.
  - destruct fills as [|g gs].
    + specialize (IH []). destruct (expand_period ts []) as [bs r].
      cbn [fst] in *. rewrite count_true_app, count_true_repeat_false. exact IH.
    + specialize (IH gs). destruct (expand_period ts gs) as [bs r].
      cbn [fst] in *. rewrite count_true_app, count_true_repeat_false. exact IH.
Qed.

Lemma expand_periods_count n : forall ts fills,
  count_true (expand_periods n ts fills) = (n * count_a ts)%nat.
Proof.
  induction n as [|n IH]; intros ts fills; [reflexivity|].
  cbn [expand_periods]. pose proof (expand_period_count ts fills) as E.
  destruct (expand_period ts fills) as [bs r].
  rewrite count_true_app, IH. cbn [fst] in E. rewrite E. lia.
Qed.

Lemma round_up_ge req k : (k <> 0)%nat -> (req <= (req + k - 1) / k * k)%nat.
Proof.
  intros Hk.
  pose proof (Nat.div_mod (req + k - 1) k Hk) as D.
  pose proof (Nat.mod_upper_bound (req + k - 1) k Hk) as M.
  nia.
Qed.

End PatternFacts.

Module PatternClaims.
Import Pattern PatternFacts.

(** C7: a pattern built from a description of [v], [a] and [x] tokens has
    at least the requested number of aggressor bits, a multiple of the
    number of [a]s of one period (and that number is the [aggressor_rows]
    reported back); when the description ends in [a] its last bit is a
    victim *)
Lemma create_pattern_aggressors description ts aggressor_rows fills bs n :
  parse description = Some ts ->
  create_pattern description aggressor_rows fills = Some (bs, n) ->
  (aggressor_rows <= count_true bs)%nat /\
  count_true bs = n /\
  (count_true bs mod count_a ts = 0)%nat /\
  (ends_in_a description = true -> last bs false = false).
Proof.
  intros Hp Hc. unfold create_pattern in Hc. rewrite Hp in Hc.
  destruct (Nat.eqb_spec aggressor_rows 0) as [H0|H0].
  { injection Hc as <- <-. subst. split; [|split; [|split]]; try reflexivity;
      try apply Nat.Div0.mod_0_l; intros _; reflexivity. }
  destruct (Nat.eqb_spec (count_a ts) 0) as [Hk|Hk]; [discriminate|].
  set (q := ((aggressor_rows + count_a ts - 1) / count_a ts)%nat) in Hc.
  assert (Hq : count_true (expand_periods q ts fills) = (q * count_a ts)%nat)
    by apply expand_periods_count.
  assert (Hge : (aggressor_rows <= q * count_a ts)%nat) by (apply round_up_ge; exact Hk).
  assert (Hm : ((q * count_a ts) mod count_a ts = 0)%nat) by (apply Nat.Div0.mod_mul).
  destruct (last (expand_periods q ts fills) false) eqn:El; injection Hc as <- <-.
  - rewrite count_true_app, Hq. cbn. rewrite Nat.add_0_r.
    split; [exact Hge|split; [reflexivity|split; [exact Hm|intros _; apply last_last]]].
  - rewrite Hq. split; [exact Hge|split; [reflexivity|split; [exact Hm|intros _; exact El]]].
Qed.

Lemma create_pattern_aggressors_witness :
  (4 <= count_true [false; true; false; true; false; true; false; true; false])%nat /\
  count_true [false; true; false; true; false; true; false; true; false] = 4%nat /\
  (count_true [false; true; false; true; false; true; false; true; false]
     mod count_a [TokV; TokA] = 0)%nat /\
  (ends_in_a "va" = true ->
   last [false; true; false; true; false; true; false; true; false] false = false).
Proof.
  apply (create_pattern_aggressors "va" [TokV; TokA] 4 []); vm_compute; reflexivity.
Defined.

End PatternClaims.

Module NoncontiguousClaims.
Import Noncontiguous.

(** C8: row 0 is missing in bank 3, the padding is 10 and the window is
    rows 5..20, so row 0 lies in [5 - 10, 20 + 10]; yet [hammer] goes on to
    hammer the window: [first_row - padding] wraps around in [row_t]
    ([uint64_t]), [lower_bound] of that huge row finds no missing row, and
    [is_any_row_missing] answers false *)
Lemma wrapped_window_hammered run :
  bank_rows 3 [(3, [0])] = Some [0] /\
  5 - 10 <= 0 <= 20 + 10 /\
  is_any_row_missing [(3, [0])] 10 3 5 20 = Some false /\
  hammer run [(3, [0])] 10 3 5 20 = Hammered (run 3 5 20).
Proof. split; [reflexivity|split; [lia|split; reflexivity]]. Qed.

End NoncontiguousClaims.

Module ConfigFacts.
Import Dram Config.

Lemma step_banks_keeps c c1 : step_banks c = Some c1 ->
  test_max_rows c1 = test_max_rows c /\ test_min_rows c1 = test_min_rows c /\
  row_padding c1 = row_padding c /\ victim_init c1 = victim_init c /\
  aggressor_init c1 = aggressor_init c.
Proof.
  unfold step_banks. destruct (banks c) as [|b bs].
  - intros H. injection H as <-. repeat split.
  - destruct (existsb _ _); [discriminate|]. intros H. injection H as <-. repeat split.
Qed.

Lemma step_test_max_rows_keeps c :
  victim_init (snd (step_test_max_rows c)) = victim_init c /\
  aggressor_init (snd (step_test_max_rows c)) = aggressor_init c.
Proof. unfold step_test_max_rows. destruct (_ && _); split; reflexivity. Qed.

Lemma step_hammer_pattern_keeps mp c :
  test_max_rows (step_hammer_pattern mp c) = test_max_rows c /\
  victim_init (step_hammer_pattern mp c) = victim_init c /\
  aggressor_init (step_hammer_pattern mp c) = aggressor_init c.
Proof.
  unfold step_hammer_pattern. destruct (pattern_bits _); [|repeat split].
  destruct (mp _ _). repeat split.
Qed.

Lemma step_aggressor_init_keeps c :
  test_max_rows (step_aggressor_init c) = test_max_rows c /\
  victim_init (step_aggressor_init c) = victim_init c.
Proof. unfold step_aggressor_init. destruct (aggressor_init c); split; reflexivity. Qed.

(** the shape of a successful [verify_values] *)
Lemma verify_values_ok mp c l c' :
  verify_values mp c = (l, Some c') ->
  exists c1, step_banks c = Some c1 /\
    l = fst (step_test_max_rows c1) /\
    c' = step_aggressor_init (step_hammer_pattern mp (snd (step_test_max_rows c1))).
Proof.
  unfold verify_values.
  destruct (negb _); [discriminate|]. destruct (negb _); [discriminate|].
  destruct (step_banks c) as [c1|]; [|discriminate].
  destruct (step_test_max_rows c1) as [l2 c2] eqn:E.
  destruct (negb _); [discriminate|]. intros H. injection H as <- <-.
  exists c1. rewrite E. split; [reflexivity|split; reflexivity].
Qed.

End ConfigFacts.

Module ConfigClaims.
Import Dram Config ConfigFacts.

(** C9: with the defaults, [test_max_rows = 0] is below
    [test_min_rows + 2 * row_padding = 69], yet verification leaves it at
    0 (meaning no restriction) and logs nothing *)
Lemma test_max_rows_zero_counterexample :
  test_max_rows default_config < test_min_rows default_config + 2 * row_padding default_config /\
  exists c', verify_values (fun _ ar => ([false; true; false], ar)) default_config = ([], Some c') /\
             test_max_rows c' = 0.
Proof.
  split; [vm_compute; reflexivity|].
  eexists. split; [compute; reflexivity|reflexivity].
Qed.

(** C9 (amended): when [0 < test_max_rows < test_min_rows + 2 * row_padding],
    with [row_padding * 2] below [2^32] (no wrap of the [uint32_t] product)
    and the sum below [2^64], the [test_max_rows] step raises
    [test_max_rows] to exactly [test_min_rows + 2 * row_padding], changes
    no other field and logs a warning with the new value; a successful
    verification ends with that value and that warning. [test_max_rows = 0]
    (no restriction) is never changed *)
Lemma test_max_rows_raised make_pattern c :
  0 <= row_padding c -> row_padding c * 2 < 2 ^ 32 ->
  0 <= test_min_rows c -> test_min_rows c + 2 * row_padding c < 2 ^ 64 ->
  0 < test_max_rows c < test_min_rows c + 2 * row_padding c ->
  step_test_max_rows c =
    ([WarnTestMaxRows (test_min_rows c + 2 * row_padding c)],
     set_test_max_rows c (test_min_rows c + 2 * row_padding c)) /\
  (forall l c', verify_values make_pattern c = (l, Some c') ->
     test_max_rows c' = test_min_rows c + 2 * row_padding c /\
     l = [WarnTestMaxRows (test_min_rows c + 2 * row_padding c)]).
Proof.
  intros Hp0 Hp32 Hm0 Hm64 [H1 H2].
  assert (Hlb : test_max_rows_lb c = test_min_rows c + 2 * row_padding c).
  { unfold test_max_rows_lb, u64. rewrite (Z.mod_small (row_padding c * 2)) by lia.
    rewrite (Z.mul_comm (row_padding c) 2). apply Z.mod_small. lia. }
  rewrite <- Hlb in H2 |- *.
  assert (Hs : forall c0, test_max_rows c0 = test_max_rows c ->
                 test_min_rows c0 = test_min_rows c -> row_padding c0 = row_padding c ->
                 step_test_max_rows c0 =
                   ([WarnTestMaxRows (test_max_rows_lb c)],
                    set_test_max_rows c0 (test_max_rows_lb c))).
  { intros c0 Ht Hm Hp. unfold step_test_max_rows.
    unfold test_max_rows_lb at 1 2 3. rewrite Ht, Hm, Hp. fold (test_max_rows_lb c).
    replace (0 <? test_max_rows c) with true by (symmetry; apply Z.ltb_lt; lia).
    replace (test_max_rows c <? test_max_rows_lb c) with true by (symmetry; apply Z.ltb_lt; lia).
    reflexivity. }
  split; [apply Hs; reflexivity|].
  intros l c' H. apply verify_values_ok in H as (c1 & Hb & -> & ->).
  apply step_banks_keeps in Hb as (Ht & Hm & Hp & _).
  rewrite (Hs c1 Ht Hm Hp). cbn [fst snd]. split; [|reflexivity].
  rewrite (proj1 (step_aggressor_init_keeps _)), (proj1 (step_hammer_pattern_keeps _ _)).
  reflexivity.
Qed.

Lemma test_max_rows_raised_witness :
  step_test_max_rows (set_test_max_rows default_config 30) =
    ([WarnTestMaxRows (test_min_rows (set_test_max_rows default_config 30)
                       + 2 * row_padding (set_test_max_rows default_config 30))],
     set_test_max_rows (set_test_max_rows default_config 30)
       (test_min_rows (set_test_max_rows default_config 30)
        + 2 * row_padding (set_test_max_rows default_config 30))) /\
  (forall l c', verify_values (fun _ ar => ([false; true; false], ar))
                  (set_test_max_rows default_config 30) = (l, Some c') ->
     test_max_rows c' = test_min_rows (set_test_max_rows default_config 30)
                        + 2 * row_padding (set_test_max_rows default_config 30) /\
     l = [WarnTestMaxRows (test_min_rows (set_test_max_rows default_config 30)
                           + 2 * row_padding (set_test_max_rows default_config 30))]).
Proof.
  apply (test_max_rows_raised (fun _ ar => ([false; true; false], ar))
           (set_test_max_rows default_config 30)); vm_compute; try split; try reflexivity;
    discriminate.
Defined.

(** C10: when no [aggressor_init] words are given, a successful
    verification sets [aggressor_init] to the bitwise NOT of each
    [victim_init] word, in order: same length, and
    [aggressor_init[i] == ~victim_init[i]] for every index *)
Lemma aggressor_init_inverted make_pattern c l c' :
  aggressor_init c = [] ->
  verify_values make_pattern c = (l, Some c') ->
  victim_init c' = victim_init c /\
  aggressor_init c' = map lnot64 (victim_init c) /\
  length (aggressor_init c') = length (victim_init c') /\
  (forall i v, nth_error (victim_init c') i = Some v ->
               nth_error (aggressor_init c') i = Some (Z.lxor v (Z.ones 64))).
Proof.
  intros Ha H. apply verify_values_ok in H as (c1 & Hb & _ & ->).
  apply step_banks_keeps in Hb as (_ & _ & _ & Hv & Ha1).
  pose proof (step_test_max_rows_keeps c1) as [Hv2 Ha2].
  pose proof (step_hammer_pattern_keeps make_pattern (snd (step_test_max_rows c1)))
    as (_ & Hv3 & Ha3).
  set (c3 := step_hammer_pattern make_pattern (snd (step_test_max_rows c1))) in *.
  assert (Hv4 : victim_init c3 = victim_init c) by congruence.
  assert (Ha4 : aggressor_init c3 = []) by congruence.
  unfold step_aggressor_init. rewrite Ha4. unfold set_aggressor_init.
  cbn [victim_init aggressor_init]. rewrite Hv4. split; [reflexivity|split; [reflexivity|split]].
  - apply length_map.
  - intros i v Hi. rewrite nth_error_map, Hi. reflexivity.
Qed.

Lemma aggressor_init_inverted_witness :
  exists l c', verify_values (fun _ ar => ([false; true; false], ar))
                 (set_aggressor_init default_config []) = (l, Some c') /\
    victim_init c' = victim_init (set_aggressor_init default_config []) /\
    aggressor_init c' = map lnot64 (victim_init (set_aggressor_init default_config [])) /\
    length (aggressor_init c') = length (victim_init c') /\
    (forall i v, nth_error (victim_init c') i = Some v ->
                 nth_error (aggressor_init c') i = Some (Z.lxor v (Z.ones 64))).
Proof.
  do 2 eexists. split; [compute; reflexivity|].
  apply (aggressor_init_inverted (fun _ ar => ([false; true; false], ar))
           (set_aggressor_init default_config []) []); [reflexivity|vm_compute; reflexivity].
Defined.

End ConfigClaims.

(** ** [DRAMAddr(a.phys()) == a]: the parity fix and the deposit of the
    row and column values *)
Module DramPhysFacts.
Import BitFacts Dram DramFacts.

Lemma popcount_aux_lxor_parity fuel : forall a c,
  popcount_aux fuel (Z.lxor a c) mod 2 = (popcount_aux fuel a + popcount_aux fuel c) mod 2.
Proof.
  induction fuel as [|f IH]; intros a c; [reflexivity|]. cbn [popcount_aux].
  assert (Ho : Z.odd (Z.lxor a c) = xorb (Z.odd a) (Z.odd c)).
  { rewrite <- !Z.bit0_odd. apply Z.lxor_spec. }
  assert (Hd : Z.div2 (Z.lxor a c) = Z.lxor (Z.div2 a) (Z.div2 c)).
  { rewrite !Z.div2_spec. apply Z.shiftr_lxor. }
  rewrite Ho, Hd.
  rewrite <- (Z.add_mod_idemp_r (if xorb (Z.odd a) (Z.odd c) then 1 else 0)) by lia.
  rewrite IH, Z.add_mod_idemp_r by lia.
  destruct (Z.odd a), (Z.odd c); cbn [xorb]; try (f_equal; ring).
  rewrite <- (Z_mod_plus_full _ 1 2). f_equal. ring.
Qed.

Lemma land_lxor_distr_l a b c : Z.land (Z.lxor a b) c = Z.lxor (Z.land a c) (Z.land b c).
Proof.
  apply Z.bits_inj'. intros j _. rewrite !Z.land_spec, !Z.lxor_spec, !Z.land_spec.
  destruct (Z.testbit a j), (Z.testbit b j), (Z.testbit c j); reflexivity.
Qed.

(** flipping bit [b] of the address toggles the parity of [h] exactly
    when [h] has bit [b] *)
Lemma xor_bits_flip p f b : 0 <= b < 64 ->
  xor_bits (Z.lxor p (2 ^ b)) f =
  if Z.testbit f b then (xor_bits p f + 1) mod 2 else xor_bits p f.
Proof.
  intros Hb. unfold xor_bits, count_one_bits.
  rewrite land_lxor_distr_l.
  destruct (Z.testbit f b) eqn:E.
  - replace (Z.land (2 ^ b) f) with (2 ^ b).
    + rewrite popcount_aux_lxor_parity.
      assert (H1 : popcount_aux 64 (2 ^ b) = 1).
      { rewrite <- Z.shiftl_1_l. exact (popcount_shifted_ones 1 b ltac:(lia) ltac:(lia) ltac:(lia)). }
      rewrite H1, Z.add_mod_idemp_l by lia. reflexivity.
    + apply Z.bits_inj'. intros j Hj. rewrite Z.land_spec, Z.pow2_bits_eqb by lia.
      destruct (Z.eqb_spec b j) as [<-|]; [rewrite E; reflexivity|reflexivity].
  - replace (Z.land (2 ^ b) f) with 0.
    + rewrite Z.lxor_0_r. reflexivity.
    + apply Z.bits_inj'. intros j Hj. rewrite Z.land_spec, Z.pow2_bits_eqb, Z.testbit_0_l by lia.
      destruct (Z.eqb_spec b j) as [<-|]; [rewrite E; reflexivity|reflexivity].
Qed.

Lemma xor_bits_01 p f : xor_bits p f = 0 \/ xor_bits p f = 1.
Proof. unfold xor_bits. pose proof (Z.mod_pos_bound (count_one_bits (Z.land p f)) 2). lia. Qed.

Lemma land_shiftr_1_01 x b : Z.land (Z.shiftr x b) 1 = 0 \/ Z.land (Z.shiftr x b) 1 = 1.
Proof.
  rewrite (Z.land_ones _ 1) by lia.
  pose proof (Z.mod_pos_bound (Z.shiftr x b) (2 ^ 1) ltac:(lia)). lia.
Qed.

Lemma fix_loop_keeps_parity bnk fs nr nc f :
  Forall (fun g => count_trailing_zero_bits (Z.land (Z.land g nc) nr) < 31 /\
    Z.testbit f (count_trailing_zero_bits (Z.land (Z.land g nc) nr)) = false) fs ->
  forall i q, xor_bits (fix_loop bnk fs i nr nc q) f = xor_bits q f.
Proof.
  induction 1 as [|g fs [Hc Hf] _ IH]; intros i q; cbn [fix_loop]; [reflexivity|].
  rewrite IH. destruct (_ =? _); [reflexivity|].
  pose proof (ctz_aux_ge 64 0 (Z.land (Z.land g nc) nr)).
  rewrite int_bit by (unfold count_trailing_zero_bits in *; lia).
  rewrite xor_bits_flip by (unfold count_trailing_zero_bits in *; lia).
  rewrite Hf. reflexivity.
Qed.

Lemma fix_loop_parity bnk nr nc fs :
  Forall (fun g => count_trailing_zero_bits (Z.land (Z.land g nc) nr) < 31) fs ->
  ForallOrdPairs (fun g g' =>
    Z.testbit g (count_trailing_zero_bits (Z.land (Z.land g' nc) nr)) = false) fs ->
  forall i q k f, nth_error fs k = Some f ->
  xor_bits (fix_loop bnk fs i nr nc q) f = Z.land (Z.shiftr bnk (i + Z.of_nat k)) 1.
Proof.
  intros Hall. revert Hall.
  induction 1 as [|g fs Hc Hfs IH]; intros Hord i q k f Hk; [destruct k; discriminate|].
  inversion Hord as [|? ? Hhd Htl]; subst. cbn [fix_loop].
  destruct k as [|k]; cbn [nth_error] in Hk.
  - injection Hk as <-.
    rewrite fix_loop_keeps_parity.
    2:{ apply Forall_forall. intros g' Hg'. split.
        - exact (proj1 (Forall_forall _ _) Hfs g' Hg').
        - exact (proj1 (Forall_forall _ _) Hhd g' Hg'). }
    rewrite Z.add_0_r.
    destruct (Z.eqb_spec (xor_bits q g) (Z.land (Z.shiftr bnk i) 1)) as [E|E]; [exact E|].
    destruct (ctz_set_bit (Z.land (Z.land g nc) nr) ltac:(lia)) as [H0 Hb].
    rewrite int_bit, xor_bits_flip by lia.
    rewrite !Z.land_spec in Hb. apply andb_true_iff in Hb as [Hb _].
    apply andb_true_iff in Hb as [Hb _]. rewrite Hb.
    destruct (xor_bits_01 q g) as [Hx|Hx], (land_shiftr_1_01 bnk i) as [Hy|Hy];
      rewrite Hx in *; rewrite Hy in *; reflexivity || lia.
  - rewrite (IH Htl (i + 1) _ k f Hk). f_equal. f_equal. lia.
Qed.

Lemma fix_loop_other_bits bnk nr nc fs :
  Forall (fun g => count_trailing_zero_bits (Z.land (Z.land g nc) nr) < 31) fs ->
  forall i q j, 0 <= j ->
  Forall (fun g => count_trailing_zero_bits (Z.land (Z.land g nc) nr) <> j) fs ->
  Z.testbit (fix_loop bnk fs i nr nc q) j = Z.testbit q j.
Proof.
  induction 1 as [|g fs Hc _ IH]; intros i q j Hj Hout; cbn [fix_loop]; [reflexivity|].
  inversion Hout as [|? ? Hgj Hout']; subst.
  rewrite IH by assumption.
  destruct (_ =? _); [reflexivity|].
  pose proof (ctz_aux_ge 64 0 (Z.land (Z.land g nc) nr)).
  rewrite int_bit by (unfold count_trailing_zero_bits in *; lia).
  rewrite Z.lxor_spec, Z.pow2_bits_eqb by (unfold count_trailing_zero_bits in *; lia).
  destruct (Z.eqb_spec (count_trailing_zero_bits (Z.land (Z.land g nc) nr)) j); [contradiction|].
  apply xorb_false_r.
Qed.

Lemma land_shiftr_1_b2z x b : 0 <= b -> Z.land (Z.shiftr x b) 1 = Z.b2z (Z.testbit x b).
Proof.
  intros Hb. rewrite (Z.land_ones _ 1) by lia.
  rewrite Z.shiftr_div_pow2, <- Z.testbit_spec' by lia. reflexivity.
Qed.

(** the bank loop of the constructor collects the parities as bits
    [i .. i + length fns - 1] *)
Lemma bank_loop_bits p bnk fns : forall i b, 0 <= i -> i + Z.of_nat (length fns) <= 64 ->
  (forall k f, nth_error fns k = Some f -> xor_bits p f = Z.land (Z.shiftr bnk (i + Z.of_nat k)) 1) ->
  bank_loop p fns i b = Z.lor b (Z.land bnk (Z.shiftl (Z.ones (Z.of_nat (length fns))) i)).
Proof.
  induction fns as [|f fs IH]; intros i b Hi Hlen Hx; cbn [bank_loop length].
  - change (Z.ones (Z.of_nat 0)) with 0. rewrite Z.shiftl_0_l, Z.land_0_r, Z.lor_0_r. reflexivity.
  - cbn [length] in Hlen. rewrite IH; [|lia|lia|].
    2:{ intros k g Hk. rewrite (Hx (S k) g Hk). f_equal. f_equal. lia. }
    rewrite (Hx 0%nat f eq_refl), Z.add_0_r, land_shiftr_1_b2z by lia.
    rewrite <- Z.lor_assoc. f_equal. rewrite Nat2Z.inj_succ.
    destruct (Z.testbit bnk i) eqn:Eb; cbn [Z.b2z];
      [rewrite Z.shiftl_1_l|rewrite Z.shiftl_0_l];
      apply Z.bits_inj'; intros j Hj; unfold u64;
      rewrite Z.lor_spec, Z.testbit_mod_pow2, !Z.land_spec, !testbit_shifted_ones by lia;
      [rewrite Z.pow2_bits_eqb by lia|rewrite Z.testbit_0_l];
      destruct (Z.leb_spec (i + 1) j), (Z.leb_spec i j), (Z.ltb_spec j 64),
        (Z.ltb_spec j (i + 1 + Z.of_nat (length fs))),
        (Z.ltb_spec j (i + Z.succ (Z.of_nat (length fs))));
      (destruct (Z.eqb_spec i j) as [E|Hne]; [rewrite <- E; rewrite ?Eb|]); cbn;
        rewrite ?andb_false_r, ?andb_true_r; try reflexivity; lia.
Qed.

Lemma land_lor_keep_l p a b : Z.land (Z.land p (Z.lor a b)) a = Z.land p a.
Proof.
  apply Z.bits_inj'. intros j _. rewrite !Z.land_spec, Z.lor_spec.
  destruct (Z.testbit p j), (Z.testbit a j), (Z.testbit b j); reflexivity.
Qed.

Lemma land_lor_keep_r p a b : Z.land (Z.land p (Z.lor a b)) b = Z.land p b.
Proof. rewrite Z.lor_comm. apply land_lor_keep_l. Qed.

(** the field value only depends on the bits of its masks *)
Lemma extract_land ms : forall p, extract p ms = extract (Z.land p (or_all ms)) ms.
Proof.
  induction ms as [|m ms IH]; intros p; [reflexivity|]. change (or_all (m :: ms)) with (Z.lor m (or_all ms)). cbn [extract].
  rewrite land_lor_keep_l. f_equal. f_equal.
  rewrite (IH (Z.land p (Z.lor m (or_all ms)))), land_lor_keep_r. apply IH.
Qed.

(** a value below [2^n] placed at bit [o] stays inside the mask
    [ones n << o] *)
Lemma deposit_in_mask r n o : 0 <= r < 2 ^ n -> 0 <= n -> 0 <= o ->
  Z.land (Z.shiftl r o) (Z.shiftl (Z.ones n) o) = Z.shiftl r o.
Proof.
  intros Hr Hn Ho. apply Z.bits_inj'. intros j Hj.
  rewrite Z.land_spec, testbit_shifted_ones, Z.shiftl_spec by lia.
  destruct (Z.leb_spec o j); [|rewrite Z.testbit_neg_r by lia; reflexivity].
  destruct (Z.ltb_spec j (o + n)); [rewrite andb_true_r; reflexivity|].
  rewrite andb_false_r. symmetry.
  rewrite <- (Z.mod_small r (2 ^ n)) by lia. rewrite Z.testbit_mod_pow2 by lia.
  destruct (Z.ltb_spec (j - o) n); [lia|reflexivity].
Qed.

Lemma deposit_hi0 r n o : 0 <= r < 2 ^ n -> 0 <= n -> 0 <= o -> n + o <= 64 ->
  hi0 (Z.shiftl r o).
Proof.
  intros Hr Hn Ho Hno. rewrite <- (deposit_in_mask r n o) by lia.
  apply DramFacts.hi0_land_r, hi0_shifted_ones; lia.
Qed.

Lemma deposit_back r n o : 0 <= r < 2 ^ n -> 0 <= n -> 0 <= o ->
  Z.shiftr (Z.land (Z.shiftl r o) (Z.shiftl (Z.ones n) o)) o = r.
Proof.
  intros Hr Hn Ho. rewrite deposit_in_mask by lia.
  rewrite Z.shiftl_mul_pow2, Z.shiftr_div_pow2 by lia.
  apply Z.div_mul. pose proof (Z.pow_pos_nonneg 2 o). lia.
Qed.

(** the general path of [phys()] deposits a value below [2^width] into
    the bits of the masks, first mask lowest *)
Lemma place_loop_deposit ms :
  ForallOrdPairs (fun a b => Z.land a b = 0) ms -> Forall (mask_ok 31) ms ->
  forall r acc, 0 <= r < 2 ^ width ms ->
  exists D, fst (place_loop r ms acc) = Z.lor acc D /\ Z.land D (or_all ms) = D /\
            extract D ms = r.
Proof.
  induction 1 as [|m ms Hm Hms IH]; intros Hok r acc Hr.
  - exists 0. cbn in Hr |- *. rewrite Z.lor_0_r. split; [reflexivity|split; [reflexivity|lia]].
  - inversion Hok as [|? ? Hm31 Hok']; subst.
    pose proof (width_nonneg ms) as Hw.
    destruct Hm31 as (n & o & Hn & Ho & Hno & ->).
    cbn [width] in Hr. rewrite popcount_shifted_ones in Hr by lia.
    cbn [place_loop]. rewrite popcount_shifted_ones, ctz_shifted_ones by lia.
    unfold pop_least_significant_bits. rewrite int_low_mask, Z.land_ones by lia.
    cbv beta iota zeta.
    pose proof (Z.mod_pos_bound r (2 ^ n) ltac:(lia)) as Hmod.
    rewrite u64_id by (apply (deposit_hi0 _ n o); lia).
    set (B := Z.shiftl (r mod 2 ^ n) o).
    destruct (IH Hok' (Z.shiftr r n) (Z.lor acc B)) as (D' & HP & HD' & HE).
    { rewrite Z.shiftr_div_pow2 by lia. split; [apply Z.div_pos; lia|].
      apply Z.div_lt_upper_bound; [lia|]. rewrite <- Z.pow_add_r by lia. lia. }
    exists (Z.lor B D').
    assert (HmR : Z.land (Z.shiftl (Z.ones n) o) (or_all ms) = 0)
      by (apply land_or_all_disjoint; exact Hm).
    assert (HBm : Z.land B (Z.shiftl (Z.ones n) o) = B) by (apply deposit_in_mask; lia).
    assert (HBR : Z.land B (or_all ms) = 0)
      by (rewrite <- HBm, <- Z.land_assoc, HmR; apply Z.land_0_r).
    assert (HDm : Z.land D' (Z.shiftl (Z.ones n) o) = 0)
      by (rewrite <- HD', <- Z.land_assoc, (Z.land_comm (or_all ms)), HmR; apply Z.land_0_r).
    split; [rewrite HP, Z.lor_assoc; reflexivity|split].
    + change (or_all (_ :: ms)) with (Z.lor (Z.shiftl (Z.ones n) o) (or_all ms)).
      rewrite Z.land_lor_distr_l, !Z.land_lor_distr_r, HBm, HBR, HDm, HD', Z.lor_0_r, Z.lor_0_l.
      reflexivity.
    + cbn [extract]. rewrite ctz_shifted_ones, popcount_shifted_ones by lia.
      rewrite Z.land_lor_distr_l, HBm, HDm, Z.lor_0_r.
      rewrite extract_land, Z.land_lor_distr_l, HBR, Z.lor_0_l, HD', HE.
      unfold B. rewrite Z.shiftl_mul_pow2, Z.shiftr_div_pow2, Z.div_mul by lia.
      rewrite Z.shiftl_mul_pow2, Z.shiftr_div_pow2 by lia.
      pose proof (Z.div_mod r (2 ^ n) ltac:(lia)). lia.
Qed.

Lemma place_col_deposit ms c acc : masks_ok ms -> 0 <= c < 2 ^ width ms ->
  exists D, place_col ms c acc = Z.lor acc D /\ Z.land D (or_all ms) = D /\ extract D ms = c.
Proof.
  intros [Hdis Hf] Hc. destruct ms as [|m [|m' ms]].
  - exact (place_loop_deposit [] Hdis Hf c acc Hc).
  - inversion Hf as [|? ? Hm _]; subst. destruct Hm as (n & o & Hn & Ho & Hno & ->).
    cbn in Hn. cbn [width] in Hc. rewrite popcount_shifted_ones, Z.add_0_r in Hc by lia.
    exists (Z.shiftl c o). unfold place_col. cbv beta iota.
    rewrite ctz_shifted_ones by lia. rewrite u64_id by (apply (deposit_hi0 c n o); lia).
    split; [reflexivity|split].
    + change (or_all [Z.shiftl (Z.ones n) o]) with (Z.lor (Z.shiftl (Z.ones n) o) 0).
      rewrite Z.lor_0_r. apply deposit_in_mask; lia.
    + cbn [extract]. rewrite ctz_shifted_ones, Z.shiftl_0_l, Z.add_0_r, deposit_back by lia.
      reflexivity.
  - exact (place_loop_deposit _ Hdis Hf c acc Hc).
Qed.

Lemma place_row_deposit ms r : masks_ok ms -> 0 <= r < 2 ^ width ms ->
  exists D, place_row ms r = D /\ Z.land D (or_all ms) = D /\ extract D ms = r.
Proof.
  intros Hok Hr. destruct (place_col_deposit ms r 0 Hok Hr) as (D & E & HD & XD).
  exists D. split; [|split; assumption]. rewrite Z.lor_0_l in E. rewrite <- E.
  destruct ms as [|m [|m' ms]]; [reflexivity| |reflexivity].
  unfold place_row, place_col. rewrite Z.lor_0_l. reflexivity.
Qed.

Lemma h_lsb_outside L h ms : masks_ok ms -> h_lsb L h < 31 ->
  (ms = row_masks L \/ ms = col_masks L) ->
  Z.testbit (or_all ms) (h_lsb L h) = false.
Proof.
  intros Hok Hc Hms. unfold h_lsb in *.
  destruct (ctz_set_bit (Z.land (Z.land h (lnot64 (accumulate (col_masks L))))
    (lnot64 (accumulate (row_masks L)))) ltac:(lia)) as [H0 Hb].
  set (j := count_trailing_zero_bits _) in *.
  rewrite !Z.land_spec in Hb. apply andb_true_iff in Hb as [Hb Hrow].
  apply andb_true_iff in Hb as [_ Hcol].
  unfold lnot64 in Hrow, Hcol.
  rewrite Z.lxor_spec, Z.testbit_ones_nonneg in Hrow, Hcol by lia.
  replace (j <? 64) with true in Hrow, Hcol by (symmetry; apply Z.ltb_lt; lia).
  destruct Hms as [->| ->]; rewrite accumulate_or in * by exact Hok;
    [destruct (Z.testbit (or_all (row_masks L)) j)|destruct (Z.testbit (or_all (col_masks L)) j)];
    reflexivity || discriminate.
Qed.

(** [phys()] leaves the row and the column where they were deposited:
    the parity fix only flips [h_lsb] bits, which are outside the masks *)
Lemma phys_fields L a :
  masks_ok (row_masks L) -> masks_ok (col_masks L) ->
  Z.land (or_all (row_masks L)) (or_all (col_masks L)) = 0 ->
  Forall (fun h => h_lsb L h < 31) (h_fns L) ->
  0 <= row a < 2 ^ width (row_masks L) ->
  0 <= col a < 2 ^ width (col_masks L) ->
  extract (phys L a) (row_masks L) = row a /\ extract (phys L a) (col_masks L) = col a.
Proof.
  intros Hr Hc Hrc Hlsb Hrow Hcol.
  destruct (place_row_deposit _ (row a) Hr Hrow) as (Dr & Er & HDr & XDr).
  destruct (place_col_deposit _ (col a) Dr Hc Hcol) as (Dc & Ec & HDc & XDc).
  unfold phys. rewrite Er, Ec.
  set (P := fix_loop (bank a) (h_fns L) 0 _ _ (Z.lor Dr Dc)).
  assert (HP : forall j, 0 <= j ->
    Z.testbit (or_all (row_masks L)) j = true \/ Z.testbit (or_all (col_masks L)) j = true ->
    Z.testbit P j = Z.testbit (Z.lor Dr Dc) j).
  { intros j Hj Hin. apply fix_loop_other_bits; [exact Hlsb|exact Hj|].
    apply Forall_forall. intros g Hg E. change (h_lsb L g = j) in E. subst j.
    pose proof (proj1 (Forall_forall _ _) Hlsb g Hg) as Hg31.
    destruct Hin as [Hin|Hin];
      [rewrite (h_lsb_outside L g _ Hr Hg31 (or_introl eq_refl)) in Hin
      |rewrite (h_lsb_outside L g _ Hc Hg31 (or_intror eq_refl)) in Hin]; discriminate. }
  assert (Hdj : forall j, Z.testbit (or_all (row_masks L)) j = true ->
                          Z.testbit (or_all (col_masks L)) j = false).
  { intros j Ej. pose proof (f_equal (fun x => Z.testbit x j) Hrc) as E. cbv beta in E.
    rewrite Z.land_spec, Ej, Z.testbit_0_l in E. exact E. }
  split; rewrite extract_land.
  - replace (Z.land P (or_all (row_masks L))) with Dr; [exact XDr|].
    apply Z.bits_inj'. intros j Hj. rewrite Z.land_spec.
    destruct (Z.testbit (or_all (row_masks L)) j) eqn:Ej.
    + rewrite HP by auto. rewrite Z.lor_spec, andb_true_r, <- HDc, Z.land_spec, (Hdj j Ej).
      rewrite andb_false_r, orb_false_r. reflexivity.
    + rewrite andb_false_r, <- HDr, Z.land_spec, Ej. apply andb_false_r.
  - replace (Z.land P (or_all (col_masks L))) with Dc; [exact XDc|].
    apply Z.bits_inj'. intros j Hj. rewrite Z.land_spec.
    destruct (Z.testbit (or_all (col_masks L)) j) eqn:Ej.
    + rewrite HP by auto. rewrite Z.lor_spec, andb_true_r, <- HDr, Z.land_spec.
      destruct (Z.testbit (or_all (row_masks L)) j) eqn:Er'; [rewrite (Hdj j Er') in Ej; discriminate|].
      rewrite andb_false_r. reflexivity.
    + rewrite andb_false_r, <- HDc, Z.land_spec, Ej. apply andb_false_r.
Qed.

(** [phys()] gives every [h_fn] the parity of its bank bit, whatever the
    bank value *)
Lemma phys_parity L a :
  Forall (fun h => h_lsb L h < 31) (h_fns L) ->
  ForallOrdPairs (fun h h' => Z.testbit h (h_lsb L h') = false) (h_fns L) ->
  forall k f, nth_error (h_fns L) k = Some f ->
  xor_bits (phys L a) f = Z.land (Z.shiftr (bank a) (0 + Z.of_nat k)) 1.
Proof. intros Hlsb Hord. unfold phys. apply fix_loop_parity; assumption. Qed.

Lemma parities_ok_intro bnk p fs : forall i,
  (forall k f, nth_error fs k = Some f -> xor_bits p f = Z.land (Z.shiftr bnk (i + Z.of_nat k)) 1) ->
  parities_ok bnk p fs i = true.
Proof.
  induction fs as [|f fs IH]; intros i H; cbn [parities_ok]; [reflexivity|].
  rewrite (H 0%nat f eq_refl), Z.add_0_r, Z.eqb_refl. apply IH.
  intros k g Hk. rewrite (H (S k) g Hk). f_equal. f_equal. lia.
Qed.

End DramPhysFacts.

Module DramExtras.
Import BitFacts Dram DramFacts DramPhysFacts.

Ltac mask_shape n o := exists n, o; cbn; repeat split; lia || reflexivity.

(** [DRAMAddr(a.phys()) == a]: for well-formed, disjoint row and column
    masks, [h_fns] whose flip bit [h_lsb] is under 31 and is set in no
    earlier [h_fn] (so a later parity fix does not undo an earlier one),
    and a bank, row and column in range, the constructor gives back the
    address [phys()] was computed from *)
Theorem of_phys_phys L a :
  masks_ok (row_masks L) -> masks_ok (col_masks L) ->
  Z.land (or_all (row_masks L)) (or_all (col_masks L)) = 0 ->
  Forall (fun h => h_lsb L h < 31) (h_fns L) ->
  ForallOrdPairs (fun h h' => Z.testbit h (h_lsb L h') = false) (h_fns L) ->
  (length (h_fns L) <= 64)%nat ->
  0 <= bank a < 2 ^ Z.of_nat (length (h_fns L)) ->
  0 <= row a < 2 ^ width (row_masks L) ->
  0 <= col a < 2 ^ width (col_masks L) ->
  of_phys L (phys L a) = a.
Proof.
  intros Hr Hc Hrc Hlsb Hord Hlen Hb Hrow Hcol.
  destruct (phys_fields L a Hr Hc Hrc Hlsb Hrow Hcol) as [ER EC].
  pose proof (phys_parity L a Hlsb Hord) as HX.
  destruct a as [b r c]. cbn [bank row col] in *.
  unfold of_phys, get_dram_row, get_dram_col.
  rewrite !get_field_extract, ER, EC by assumption.
  rewrite (bank_loop_bits _ b (h_fns L) 0 0) by (lia || exact HX).
  rewrite Z.lor_0_l, Z.shiftl_0_r, Z.land_ones, Z.mod_small by lia. reflexivity.
Qed.

Lemma of_phys_phys_witness :
  of_phys example_layout (phys example_layout (mkDRAMAddr 24 0x48d 0x1000))
  = mkDRAMAddr 24 0x48d 0x1000.
Proof.
  apply of_phys_phys.
  - split; [repeat constructor|constructor; [mask_shape 18 18|constructor]].
  - split; [repeat constructor|constructor; [mask_shape 13 0|constructor]].
  - vm_compute. reflexivity.
  - repeat constructor; vm_compute; reflexivity.
  - repeat constructor; vm_compute; reflexivity.
  - cbn. lia.
  - cbn. lia.
  - cbn. lia.
  - cbn. lia.
Defined.

(** the [DEBUG_REVERSE_FN] check at the end of [phys()] never logs an
    error under the same layout conditions, for any bank value and a row
    and a column in range *)
Theorem phys_check_passes L a :
  masks_ok (row_masks L) -> masks_ok (col_masks L) ->
  Z.land (or_all (row_masks L)) (or_all (col_masks L)) = 0 ->
  Forall (fun h => h_lsb L h < 31) (h_fns L) ->
  ForallOrdPairs (fun h h' => Z.testbit h (h_lsb L h') = false) (h_fns L) ->
  0 <= row a < 2 ^ width (row_masks L) ->
  0 <= col a < 2 ^ width (col_masks L) ->
  phys_respected L a = true.
Proof.
  intros Hr Hc Hrc Hlsb Hord Hrow Hcol.
  destruct (phys_fields L a Hr Hc Hrc Hlsb Hrow Hcol) as [ER _].
  unfold phys_respected, get_dram_row. cbv zeta.
  rewrite parities_ok_intro by exact (phys_parity L a Hlsb Hord).
  rewrite get_field_extract, ER, Z.eqb_refl by exact Hr. reflexivity.
Qed.

Lemma phys_check_passes_witness :
  phys_respected example_layout (mkDRAMAddr 0x1234 0x3ffff 0x1fff) = true.
Proof.
  apply phys_check_passes.
  - split; [repeat constructor|constructor; [mask_shape 18 18|constructor]].
  - split; [repeat constructor|constructor; [mask_shape 13 0|constructor]].
  - vm_compute. reflexivity.
  - repeat constructor; vm_compute; reflexivity.
  - repeat constructor; vm_compute; reflexivity.
  - cbn. lia.
  - cbn. lia.
Defined.

End DramExtras.

(** ** What [Config::verify_masks] accepts *)
Module MaskExtras.
Import BitFacts Dram DramFacts Config.

Lemma ctz_aux_below fuel : forall i x j, i <= j < ctz_aux fuel i x -> Z.testbit x j = false.
Proof.
  induction fuel as [|f IH]; intros i x j Hj; cbn [ctz_aux] in Hj; [lia|].
  destruct (Z.testbit x i) eqn:E; [lia|].
  destruct (Z.eqb_spec j i) as [->|Hne]; [exact E|]. apply (IH (i + 1)); lia.
Qed.

Lemma popcount_aux_zero_bits fuel : forall x, popcount_aux fuel x = 0 ->
  forall j, 0 <= j < Z.of_nat fuel -> Z.testbit x j = false.
Proof.
  induction fuel as [|f IH]; intros x Hx j Hj; [cbn in Hj; lia|].
  cbn [popcount_aux] in Hx. pose proof (popcount_aux_range f (Z.div2 x)).
  destruct (Z.odd x) eqn:Eo; [lia|].
  destruct (Z.eqb_spec j 0) as [->|Hne]; [rewrite Z.bit0_odd; exact Eo|].
  replace j with (Z.succ (j - 1)) by lia.
  rewrite <- Z.div2_bits by lia. apply IH; [rewrite <- Z.div2_div; lia|lia].
Qed.

Lemma log2_shifted_ones n o : 1 <= n -> 0 <= o -> Z.log2 (Z.shiftl (Z.ones n) o) = n + o - 1.
Proof.
  intros Hn Ho. apply Z.log2_bits_unique.
  - rewrite testbit_shifted_ones by lia.
    apply andb_true_iff; split; [apply Z.leb_le|apply Z.ltb_lt]; lia.
  - intros m Hm. rewrite testbit_shifted_ones by lia.
    destruct (Z.ltb_spec m (o + n)); [lia|apply andb_false_r].
Qed.

(** one mask: [clz + popcount + ctz == 64] holds exactly for a non-zero
    run of consecutive 1-bits *)
Lemma verify_mask_ok m : 0 <= m < 2 ^ 64 ->
  (count_leading_zero_bits m + count_one_bits m + count_trailing_zero_bits m =? 64) = true <->
  mask_ok 64 m.
Proof.
  intros Hm. rewrite Z.eqb_eq. split.
  - intros Hs. destruct (Z.eqb_spec m 0) as [->|Hm0]; [vm_compute in Hs; discriminate|].
    unfold count_leading_zero_bits in Hs. rewrite (proj2 (Z.eqb_neq m 0) Hm0) in Hs.
    assert (Ht0 : 0 <= count_trailing_zero_bits m) by apply ctz_aux_ge.
    assert (Hbelow : forall j, 0 <= j < count_trailing_zero_bits m -> Z.testbit m j = false)
      by (intros j Hj; exact (ctz_aux_below 64 0 m j Hj)).
    set (t := count_trailing_zero_bits m) in *. set (h := Z.log2 m) in *.
    assert (Hh : h < 64) by (apply Z.log2_lt_pow2; lia).
    assert (Hh0 : 0 <= h) by apply Z.log2_nonneg.
    assert (Hth : Z.testbit m h = true) by (apply Z.bit_log2; lia).
    assert (Habove : forall j, h < j -> Z.testbit m j = false)
      by (intros j Hj; apply Z.bits_above_log2; lia).
    assert (Htle : t <= h).
    { destruct (Z.leb_spec t h); [lia|]. rewrite Hbelow in Hth by lia. discriminate. }
    set (M := Z.shiftl (Z.ones (h - t + 1)) t).
    assert (HMb : forall j, 0 <= j -> Z.testbit M j = (t <=? j) && (j <=? h)).
    { intros j Hj. unfold M. rewrite testbit_shifted_ones by lia.
      destruct (Z.ltb_spec j (t + (h - t + 1))), (Z.leb_spec j h); simpl;
        rewrite ?andb_true_r, ?andb_false_r; reflexivity || lia. }
    assert (HmM : forall j, 0 <= j -> Z.testbit m j = true -> Z.testbit M j = true).
    { intros j Hj E. rewrite HMb by exact Hj.
      destruct (Z.leb_spec t j); [|rewrite Hbelow in E by lia; discriminate].
      destruct (Z.leb_spec j h); [reflexivity|rewrite Habove in E by lia; discriminate]. }
    assert (Hdis : Z.land m (Z.land M (Z.lnot m)) = 0).
    { apply Z.bits_inj'. intros j Hj. rewrite !Z.land_spec, Z.lnot_spec, Z.testbit_0_l by exact Hj.
      destruct (Z.testbit m j); rewrite ?andb_false_r; reflexivity. }
    assert (Hsplit : Z.lor m (Z.land M (Z.lnot m)) = M).
    { apply Z.bits_inj'. intros j Hj. rewrite Z.lor_spec, Z.land_spec, Z.lnot_spec by exact Hj.
      destruct (Z.testbit m j) eqn:E; [rewrite (HmM j Hj E); reflexivity|].
      rewrite andb_true_r. reflexivity. }
    assert (HpM : count_one_bits M = h - t + 1) by (apply popcount_shifted_ones; lia).
    pose proof (popcount_aux_lor_disjoint 64 _ _ Hdis) as Hp. rewrite Hsplit in Hp.
    unfold count_one_bits in *.
    pose proof (popcount_aux_range 64 (Z.land M (Z.lnot m))).
    pose proof (popcount_aux_zero_bits 64 (Z.land M (Z.lnot m)) ltac:(lia)) as Hz.
    exists (h - t + 1), t. split; [lia|split; [lia|split; [lia|]]].
    apply Z.bits_inj'. intros j Hj. fold M.
    destruct (Z.testbit M j) eqn:EM.
    + rewrite HMb in EM by exact Hj. apply andb_true_iff in EM as [EM1 EM].
      apply Z.leb_le in EM1. apply Z.leb_le in EM.
      specialize (Hz j ltac:(cbn; lia)). rewrite Z.land_spec, Z.lnot_spec in Hz by exact Hj.
      rewrite HMb in Hz by exact Hj.
      destruct (Z.testbit m j); [reflexivity|].
      destruct (Z.leb_spec t j), (Z.leb_spec j h); cbn in Hz; discriminate || lia.
    + destruct (Z.testbit m j) eqn:E; [|reflexivity]. rewrite (HmM j Hj E) in EM. discriminate.
  - intros (n & o & Hn & Ho & Hno & ->). unfold count_leading_zero_bits.
    assert (Hnz : Z.shiftl (Z.ones n) o <> 0).
    { intros E. pose proof (testbit_shifted_ones n o o ltac:(lia) Ho Ho) as Hb.
      rewrite E, Z.testbit_0_l in Hb. destruct (Z.leb_spec o o), (Z.ltb_spec o (o + n));
      cbn in Hb; discriminate || lia. }
    rewrite (proj2 (Z.eqb_neq _ 0) Hnz), log2_shifted_ones, popcount_shifted_ones,
      ctz_shifted_ones by lia.
    lia.
Qed.

(** [Config::verify_masks] accepts a list of [uint64_t] masks exactly when
    every mask is one non-empty run of consecutive 1-bits *)
Theorem verify_masks_iff ms : Forall (fun m => 0 <= m < 2 ^ 64) ms ->
  verify_masks ms = true <-> Forall (mask_ok 64) ms.
Proof.
  induction 1 as [|m ms Hm _ IH]; [split; intros; [constructor|reflexivity]|].
  unfold verify_masks in *. cbn [forallb]. rewrite andb_true_iff, IH, verify_mask_ok by exact Hm.
  split; [intros [A B]; constructor; assumption|intros H; inversion H; subst; split; assumption].
Qed.

Lemma verify_masks_iff_witness :
  verify_masks [0xffffc0000; 0x1fff; 0x6000] = true <->
  Forall (mask_ok 64) [0xffffc0000; 0x1fff; 0x6000].
Proof. apply verify_masks_iff. repeat constructor; lia. Defined.

End MaskExtras.

(** ** The page map built by [PhysPageFinder::PhysPageFinder()] *)
Module PageFinderFacts.
Import BitFacts PageFinder.

Lemma map_find_insert x k v m :
  map_find x (map_insert k v m) = if x =? k then Some v else map_find x m.
Proof.
  induction m as [|[k' v'] m IH]; cbn [map_insert map_find]; [reflexivity|].
  destruct (Z.eqb_spec k k') as [<-|Hne].
  - cbn [map_find]. destruct (x =? k); reflexivity.
  - destruct (Z.ltb_spec k k'); cbn [map_find]; [reflexivity|].
    rewrite IH. destruct (Z.eqb_spec x k'), (Z.eqb_spec x k); subst; reflexivity || congruence.
Qed.

Lemma frame_nonneg e : 0 <= frame_number_from_pagemap e.
Proof.
  unfold frame_number_from_pagemap. apply Z.land_nonneg. right.
  rewrite Z.shiftl_1_l. pose proof (Z.pow_pos_nonneg 2 55). lia.
Qed.

Section Inv.
Variable pm : Z -> Z.
Variable mp : Z.

Definition present_at (off : Z) : Prop := is_page_present (pm (mp + off)) <> 0.
Definition frame_at (off : Z) : Z := frame_number_from_pagemap (pm (mp + off)).

(** after the entries [0 .. c - 1] were processed: every map entry points
    at a present page with that frame, every present frame passed the
    [assert], and the last present page with a frame is the one recorded *)
Definition inv (m : pagemap_t) (c : Z) : Prop :=
  (forall f off, map_find f m = Some off -> 0 <= off < c /\ present_at off /\ frame_at off = f) /\
  (forall off, 0 <= off < c -> present_at off -> frame_at off <= 2 ^ 32 - 1) /\
  (forall off, 0 <= off < c -> present_at off ->
     (forall off', off < off' < c -> present_at off' -> frame_at off' <> frame_at off) ->
     map_find (frame_at off) m = Some off).

Lemma inv_empty : inv [] 0.
Proof. split; [|split]; intros; [discriminate|lia|lia]. Qed.

Lemma inv_absent m c : inv m c -> ~ present_at c -> inv m (c + 1).
Proof.
  intros (Hs & Ha & Hc) Hp. split; [|split].
  - intros f off E. destruct (Hs f off E) as (? & ? & ?). split; [lia|auto].
  - intros off Ho Hpo. destruct (Z.eqb_spec off c) as [->|]; [contradiction|]. apply Ha; [lia|auto].
  - intros off Ho Hpo Hu. destruct (Z.eqb_spec off c) as [->|]; [contradiction|].
    apply Hc; [lia|exact Hpo|]. intros off' Ho' Hp'. apply Hu; [lia|exact Hp'].
Qed.

Lemma inv_present m c : 0 <= c -> inv m c -> present_at c -> frame_at c <= 2 ^ 32 - 1 ->
  inv (map_insert (frame_at c) c m) (c + 1).
Proof.
  intros Hc0 (Hs & Ha & Hc) Hp Hf. split; [|split].
  - intros f off E. rewrite map_find_insert in E.
    destruct (Z.eqb_spec f (frame_at c)) as [->|Hne].
    + injection E as <-. split; [lia|auto].
    + destruct (Hs f off E) as (? & ? & ?). split; [lia|auto].
  - intros off Ho Hpo. destruct (Z.eqb_spec off c) as [->|]; [exact Hf|]. apply Ha; [lia|auto].
  - intros off Ho Hpo Hu. rewrite map_find_insert.
    destruct (Z.eqb_spec off c) as [->|Hne]; [rewrite Z.eqb_refl; reflexivity|].
    assert (Hd : frame_at c <> frame_at off) by (apply Hu; [lia|exact Hp]).
    destruct (Z.eqb_spec (frame_at off) (frame_at c)) as [E|]; [congruence|].
    apply Hc; [lia|exact Hpo|]. intros off' Ho' Hp'. apply Hu; [lia|exact Hp'].
Qed.

Lemma store_entries_inv i len : forall s m m', 0 <= i ->
  i + Z.of_nat s + Z.of_nat len < 2 ^ 64 ->
  store_entries i (Z.of_nat s) (map (fun j => pm (mp + i + Z.of_nat j)) (seq s len)) m = Some m' ->
  inv m (i + Z.of_nat s) -> inv m' (i + Z.of_nat s + Z.of_nat len).
Proof.
  induction len as [|len IH]; intros s m m' Hi Hb E Hinv.
  - cbn in E. injection E as <-. rewrite Z.add_0_r. exact Hinv.
  - cbn [seq map store_entries] in E.
    replace (mp + i + Z.of_nat s) with (mp + (i + Z.of_nat s)) in E by lia.
    replace (Z.of_nat s + 1) with (Z.of_nat (S s)) in E by lia.
    replace (i + Z.of_nat s + Z.of_nat (S len)) with (i + Z.of_nat (S s) + Z.of_nat len) by lia.
    destruct (Z.eqb_spec (is_page_present (pm (mp + (i + Z.of_nat s)))) 0) as [Hp|Hp].
    + apply (IH (S s) m m' Hi ltac:(lia) E).
      replace (i + Z.of_nat (S s)) with (i + Z.of_nat s + 1) by lia.
      apply inv_absent; [exact Hinv|]. intros H. apply H. exact Hp.
    + unfold u64 in E. rewrite (Z.mod_small (i + Z.of_nat s)) in E by lia.
      destruct (Z.leb_spec (frame_number_from_pagemap (pm (mp + (i + Z.of_nat s)))) (2 ^ 32 - 1))
        as [Hf|Hf]; [|discriminate].
      destruct (Z.leb_spec (i + Z.of_nat s) (2 ^ 32 - 1)) as [Ho|Ho]; [|discriminate].
      cbn [andb] in E.
      pose proof (frame_nonneg (pm (mp + (i + Z.of_nat s)))).
      rewrite !Z.mod_small in E by lia.
      apply (IH (S s) _ m' Hi ltac:(lia) E).
      replace (i + Z.of_nat (S s)) with (i + Z.of_nat s + 1) by lia.
      apply inv_present; [lia|exact Hinv|exact Hp|exact Hf].
Qed.

Lemma build_loop_inv n : forall fuel q m m', 0 <= q -> n + 128 <= 2 ^ 64 ->
  n - 128 * q <= 128 * Z.of_nat fuel ->
  build_loop pm mp n (128 * q) fuel m = Some m' -> inv m (128 * q) ->
  inv m' (Z.max (128 * q) (128 * ((n + 127) / 128))).
Proof.
  assert (Hlow : forall q, n <= 128 * q -> 128 * ((n + 127) / 128) <= 128 * q).
  { intros q Hq. enough ((n + 127) / 128 < q + 1) by lia.
    apply Z.div_lt_upper_bound; lia. }
  induction fuel as [|f IH]; intros q m m' Hq Hn Hf E Hinv; cbn [build_loop] in E.
  - injection E as <-. rewrite Z.max_l by (apply Hlow; lia). exact Hinv.
  - destruct (Z.ltb_spec (128 * q) n) as [Hlt|Hge].
    + destruct (store_entries _ _ _ _) as [m1|] eqn:E1; [|discriminate].
      assert (Hinv1 : inv m1 (128 * (q + 1))).
      { replace (128 * (q + 1)) with (128 * q + Z.of_nat 0 + Z.of_nat read_pages)
          by (change (Z.of_nat read_pages) with 128; lia).
        apply (store_entries_inv (128 * q) read_pages 0 m m1);
          [lia|change (Z.of_nat read_pages) with 128; lia|exact E1|].
        rewrite Z.add_0_r. exact Hinv. }
      replace (128 * q + Z.of_nat read_pages) with (128 * (q + 1)) in E
        by (change (Z.of_nat read_pages) with 128; lia).
      pose proof (IH (q + 1) m1 m' ltac:(lia) Hn ltac:(lia) E Hinv1) as H.
      assert (Hup : q + 1 <= (n + 127) / 128) by (apply Z.div_le_lower_bound; lia).
      rewrite Z.max_r in H by lia. rewrite Z.max_r by lia. exact H.
    + injection E as <-. rewrite Z.max_l by (apply Hlow; lia). exact Hinv.
Qed.

End Inv.

Lemma build_pagemap_inv pm mem memory_size m :
  0 <= memory_size < 2 ^ 64 -> build_pagemap pm mem memory_size = Some m ->
  inv pm (mem / page_size) m (128 * ((memory_size / page_size + 127) / 128)).
Proof.
  intros Hs E. unfold build_pagemap in E.
  set (n := memory_size / page_size) in *.
  assert (Hn0 : 0 <= n) by (apply Z.div_pos; unfold page_size; lia).
  assert (Hn : n + 128 <= 2 ^ 64).
  { assert (n < 2 ^ 52) by (unfold n, page_size; apply Z.div_lt_upper_bound; lia). lia. }
  pose proof (build_loop_inv pm (mem / page_size) n (S (Z.to_nat (n / Z.of_nat read_pages)))
    0 [] m ltac:(lia) Hn) as H.
  assert (Hr : 0 <= 128 * ((n + 127) / 128))
    by (apply Z.mul_nonneg_nonneg; [lia|apply Z.div_pos; lia]).
  rewrite Z.max_r in H by exact Hr.
  apply H; [|exact E|exact (inv_empty _ _)].
  change (Z.of_nat read_pages) with 128.
  rewrite Nat2Z.inj_succ, Z2Nat.id by (apply Z.div_pos; lia).
  pose proof (Z.mod_pos_bound n 128 ltac:(lia)).
  pose proof (Z.div_mod n 128 ltac:(lia)). lia.
Qed.

Lemma lor_page_offset F d : 0 <= d < 2 ^ 12 -> Z.lor (F * 2 ^ 12) d = F * 2 ^ 12 + d.
Proof.
  intros Hd.
  assert (Hl : Z.land (F * 2 ^ 12) d = 0).
  { apply Z.bits_inj'. intros j Hj. rewrite Z.land_spec, Z.testbit_0_l.
    destruct (Z.ltb_spec j 12).
    - rewrite Z.mul_pow2_bits_low by lia. reflexivity.
    - rewrite <- (Z.mod_small d (2 ^ 12)) by lia. rewrite Z.testbit_mod_pow2 by lia.
      destruct (Z.ltb_spec j 12); [lia|]. apply andb_false_r. }
  rewrite <- Z.lxor_lor, <- Z.add_nocarry_lxor by exact Hl. reflexivity.
Qed.

End PageFinderFacts.

Module PageFinderExtras.
Import BitFacts PageFinder PageFinderFacts.

(** every entry of the page map the constructor builds points at a page
    whose pagemap entry is present and names that frame; the page lies in
    the range the loop reads, which runs up to the next multiple of 128
    pages, past the end of the allocation *)
Theorem build_pagemap_sound pm mem memory_size m f off :
  0 <= memory_size < 2 ^ 64 -> build_pagemap pm mem memory_size = Some m ->
  map_find f m = Some off ->
  0 <= off < 128 * ((memory_size / page_size + 127) / 128) /\
  is_page_present (pm (mem / page_size + off)) <> 0 /\
  frame_number_from_pagemap (pm (mem / page_size + off)) = f.
Proof.
  intros Hs E Hf. destruct (build_pagemap_inv pm mem memory_size m Hs E) as (Hsnd & _ & _).
  exact (Hsnd f off Hf).
Qed.

Lemma build_pagemap_sound_witness :
  0 <= 0 < 128 * ((8192 / page_size + 127) / 128) /\
  is_page_present ((fun k => if k =? 0x100 then 0x8000000000001234 else 0) (0x100000 / page_size + 0)) <> 0 /\
  frame_number_from_pagemap
    ((fun k => if k =? 0x100 then 0x8000000000001234 else 0) (0x100000 / page_size + 0)) = 0x1234.
Proof.
  apply (build_pagemap_sound (fun k => if k =? 0x100 then 0x8000000000001234 else 0)
    0x100000 8192 [(0x1234, 0)] 0x1234 0); [lia|vm_compute; reflexivity|vm_compute; reflexivity].
Defined.

(** a present page in the range the constructor reads is recorded under
    its frame number, unless a later page in that range has the same
    frame (the later one then wins) *)
Theorem build_pagemap_complete pm mem memory_size m off :
  0 <= memory_size < 2 ^ 64 -> build_pagemap pm mem memory_size = Some m ->
  0 <= off < 128 * ((memory_size / page_size + 127) / 128) ->
  is_page_present (pm (mem / page_size + off)) <> 0 ->
  (forall off', off < off' < 128 * ((memory_size / page_size + 127) / 128) ->
     is_page_present (pm (mem / page_size + off')) <> 0 ->
     frame_number_from_pagemap (pm (mem / page_size + off')) <>
     frame_number_from_pagemap (pm (mem / page_size + off))) ->
  map_find (frame_number_from_pagemap (pm (mem / page_size + off))) m = Some off.
Proof.
  intros Hs E Ho Hp Hu. destruct (build_pagemap_inv pm mem memory_size m Hs E) as (_ & _ & Hc).
  exact (Hc off Ho Hp Hu).
Qed.

Lemma build_pagemap_complete_witness :
  map_find (frame_number_from_pagemap
    ((fun k => if k =? 0x100 then 0x8000000000001234 else 0) (0x100000 / page_size + 0)))
    [(0x1234, 0)] = Some 0.
Proof.
  apply (build_pagemap_complete (fun k => if k =? 0x100 then 0x8000000000001234 else 0)
    0x100000 8192 [(0x1234, 0)] 0); [lia|vm_compute; reflexivity|split; [lia|reflexivity]
    |vm_compute; discriminate|].
  intros off' Hr Hp. exfalso. apply Hp. change (0x100000 / page_size) with 0x100. cbv beta.
  replace (0x100 + off' =? 0x100) with false by (symmetry; apply Z.eqb_neq; lia). reflexivity.
Defined.

(** [find_page] undoes [get_physical_addr] on the allocation: for an
    address in page [off] of a page-aligned allocation whose page map was
    built, [find_page] of its physical address gives the start of page
    [off] (if no later page read by the constructor has the same frame) *)
Theorem find_page_get_physical_addr pm mem memory_size m off d p v :
  0 <= memory_size < 2 ^ 64 -> mem mod page_size = 0 ->
  build_pagemap pm mem memory_size = Some m ->
  0 <= off < memory_size / page_size -> 0 <= d < page_size ->
  get_physical_addr pm (mem + off * page_size + d) = Some p ->
  (forall off', off < off' < 128 * ((memory_size / page_size + 127) / 128) ->
     is_page_present (pm (mem / page_size + off')) <> 0 ->
     frame_number_from_pagemap (pm (mem / page_size + off')) <>
     frame_number_from_pagemap (pm (mem / page_size + off))) ->
  find_page (mkFinder mem m) p v = (true, u64 (mem + off * page_size)).
Proof.
  intros Hs Hm E Ho Hd Hg Hu.
  destruct (build_pagemap_inv pm mem memory_size m Hs E) as (_ & Ha & Hc).
  pose proof (Z.div_mod mem page_size ltac:(unfold page_size; lia)) as Hmem.
  rewrite Hm, Z.add_0_r in Hmem.
  assert (Hq : (mem + off * page_size + d) / page_size = mem / page_size + off).
  { replace (mem + off * page_size + d) with (d + (mem / page_size + off) * page_size) by lia.
    rewrite Z.div_add by (unfold page_size; lia). rewrite Z.div_small by lia. ring. }
  assert (HRL : off < 128 * ((memory_size / page_size + 127) / 128)).
  { enough (memory_size / page_size + 127 - 127 <= 128 * ((memory_size / page_size + 127) / 128))
      by lia.
    pose proof (Z.div_mod (memory_size / page_size + 127) 128 ltac:(lia)).
    pose proof (Z.mod_pos_bound (memory_size / page_size + 127) 128 ltac:(lia)). lia. }
  unfold get_physical_addr in Hg. rewrite Hq in Hg.
  destruct (Z.eqb_spec (Z.land (pm (mem / page_size + off)) (Z.shiftl 1 63)) 0) as [|Hp];
    [discriminate|].
  destruct (Z.eqb_spec (frame_number_from_pagemap (pm (mem / page_size + off))) 0) as [|Hf0];
    [discriminate|].
  injection Hg as <-.
  assert (Hf : frame_number_from_pagemap (pm (mem / page_size + off)) <= 2 ^ 32 - 1)
    by (apply (Ha off); [lia|exact Hp]).
  assert (HF : map_find (frame_number_from_pagemap (pm (mem / page_size + off))) m = Some off)
    by exact (Hc off ltac:(lia) Hp Hu).
  pose proof (frame_nonneg (pm (mem / page_size + off))).
  set (F := frame_number_from_pagemap (pm (mem / page_size + off))) in *.
  assert (Hn : memory_size / page_size < 2 ^ 52)
    by (apply Z.div_lt_upper_bound; unfold page_size; lia).
  unfold find_page. cbn [pagemap PageFinder.mem]. unfold page_size in *.
  assert (Hl : Z.land (mem + off * 4096 + d) 4095 = d).
  { change 4095 with (Z.ones 12). rewrite Z.land_ones by lia.
    replace (mem + off * 4096 + d) with (d + (mem / 4096 + off) * 2 ^ 12) by lia.
    rewrite Z_mod_plus_full. apply Z.mod_small. lia. }
  rewrite Hl. unfold u64. rewrite (Z.mod_small (F * 4096)) by lia.
  change (F * 4096) with (F * 2 ^ 12). rewrite lor_page_offset by lia.
  replace ((F * 2 ^ 12 + d) / 4096) with F.
  2:{ change (2 ^ 12) with 4096. rewrite Z.add_comm, Z.div_add, Z.div_small by lia. ring. }
  rewrite Z.mod_small by lia. rewrite HF. rewrite (Z.mod_small (off * 4096)) by lia. reflexivity.
Qed.

Lemma find_page_get_physical_addr_witness :
  find_page (mkFinder 0x100000 [(0x1234, 0)]) 0x1234056 0 = (true, u64 (0x100000 + 0 * page_size)).
Proof.
  apply (find_page_get_physical_addr (fun k => if k =? 0x100 then 0x8000000000001234 else 0)
    0x100000 8192 [(0x1234, 0)] 0 0x56); [lia|vm_compute; reflexivity|vm_compute; reflexivity
    |split; [lia|reflexivity]|split; [lia|reflexivity]|vm_compute; reflexivity|].
  intros off' Hr Hp. exfalso. apply Hp. change (0x100000 / page_size) with 0x100. cbv beta.
  replace (0x100 + off' =? 0x100) with false by (symmetry; apply Z.eqb_neq; lia). reflexivity.
Defined.

End PageFinderExtras.

Module FlipperExtras.
Import BitFacts PageFinder BitFlipper FlipperFacts MaskExtras.

Lemma scan_word_empty victim off w init :
  0 <= w < 2 ^ 64 -> 0 <= init < 2 ^ 64 ->
  (length (scan_word victim off w init) =? 0)%nat = (w =? init).
Proof.
  intros Hw Hi. unfold scan_word. destruct (Z.eqb_spec w init) as [|Hne]; [reflexivity|].
  apply Nat.eqb_neq. intros Hl.
  pose proof (bit_loop_length victim off w init 64 0 ltac:(lia)) as E.
  rewrite Hl, Z.shiftr_0_r in E. cbn [Z.of_nat] in E.
  apply Hne, Z.lxor_eq. apply Z.bits_inj'. intros j Hj. rewrite Z.bits_0.
  destruct (Z.lt_ge_cases j 64).
  - apply (popcount_aux_zero_bits 64); [symmetry; exact E|cbn; lia].
  - rewrite Z.lxor_spec, (hi0_of_range w Hw j), (hi0_of_range init Hi j) by lia. reflexivity.
Qed.

Lemma scan_row_empty victim ws init : Forall (fun w => 0 <= w < 2 ^ 64) ws -> 0 <= init < 2 ^ 64 ->
  forall off, (length (scan_row victim off ws init) =? 0)%nat = forallb (fun w => w =? init) ws.
Proof.
  intros Hws Hi. induction Hws as [|w ws Hw Hws IH]; intros off; [reflexivity|].
  cbn [scan_row forallb]. rewrite length_app, <- (scan_word_empty victim off w init Hw Hi), <- (IH (off + 8)).
  destruct (length (scan_word victim off w init)), (length (scan_row victim (off + 8) ws init));
    reflexivity.
Qed.

(** the result of [hammer_and_check] is [true] exactly when some 64-bit
    word read back from a victim row differs from [victim_init]: every
    changed word yields at least one flip event *)
Theorem check_flips_detects victims init :
  Forall (fun vw => Forall (fun w => 0 <= w < 2 ^ 64) (snd vw)) victims ->
  0 <= init < 2 ^ 64 ->
  snd (check_flips victims init)
  = existsb (fun vw => existsb (fun w => negb (w =? init)) (snd vw)) victims.
Proof.
  intros Hv Hi. unfold check_flips. cbn [snd]. f_equal.
  induction Hv as [|[p ws] vs Hws Hvs IH]; [reflexivity|].
  cbn [flat_map existsb snd] in *. rewrite length_app.
  pose proof (scan_row_empty p ws init Hws Hi 0) as E.
  assert (Hex : existsb (fun w => negb (w =? init)) ws = negb (forallb (fun w => w =? init) ws)).
  { clear. induction ws as [|w ws IH]; [reflexivity|]. cbn. rewrite IH. destruct (w =? init); reflexivity. }
  rewrite Hex, <- E, <- IH.
  destruct (length (scan_row p 0 ws init)), (length (flat_map _ vs)); reflexivity.
Qed.

Lemma check_flips_detects_witness :
  snd (check_flips [(0x10000, [0; 0; 0x80]); (0x20000, [0])] 0)
  = existsb (fun vw => existsb (fun w => negb (w =? 0)) (snd vw)) [(0x10000, [0; 0; 0x80]); (0x20000, [0])].
Proof.
  apply check_flips_detects; [repeat constructor; cbn; lia|lia].
Defined.

End FlipperExtras.

Module NoncontiguousExtras.
Import Noncontiguous.

Lemma lower_bound_cons x s key : lower_bound (x :: s) key =
  if key <=? x then match lower_bound s key with Some y => Some (Z.min x y) | None => Some x end
  else lower_bound s key.
Proof. reflexivity. Qed.

Lemma lower_bound_some s key y : lower_bound s key = Some y ->
  In y s /\ key <= y /\ forall x, In x s -> key <= x -> y <= x.
Proof.
  revert y. induction s as [|x s IH]; intros y H; [discriminate|].
  rewrite lower_bound_cons in H. destruct (Z.leb_spec key x).
  - destruct (lower_bound s key) as [z|] eqn:E.
    + injection H as <-. destruct (IH z eq_refl) as (Hin & Hk & Hmin).
      split; [destruct (Z.min_spec x z) as [[_ ->]|[_ ->]]; [left|right]; auto|].
      split; [lia|]. intros w [<-|Hw] Hw'; [lia|]. specialize (Hmin w Hw Hw'). lia.
    + injection H as <-. split; [left; reflexivity|split; [lia|]].
      intros w [<-|Hw] Hw'; [lia|].
      exfalso. clear IH. induction s as [|u s IHs]; [contradiction|].
      rewrite lower_bound_cons in E. destruct (Z.leb_spec key u).
      * destruct (lower_bound s key); discriminate.
      * destruct Hw as [<-|Hw]; [lia|]. exact (IHs E Hw).
  - destruct (IH y H) as (Hin & Hk & Hmin). split; [right; exact Hin|split; [exact Hk|]].
    intros w [<-|Hw] Hw'; [lia|]. exact (Hmin w Hw Hw').
Qed.

Lemma lower_bound_none s key : lower_bound s key = None -> forall x, In x s -> x < key.
Proof.
  induction s as [|u s IH]; intros H x Hx; [contradiction|].
  rewrite lower_bound_cons in H. destruct (Z.leb_spec key u).
  - destruct (lower_bound s key); discriminate.
  - destruct Hx as [<-|Hx]; [lia|]. exact (IH H x Hx).
Qed.

(** when [first_row - row_padding] and [last_row + row_padding] stay in
    [row_t] (no wrap-around), [is_any_row_missing] answers whether some
    missing row of the bank lies in [first_row - row_padding,
    last_row + row_padding] *)
Theorem is_any_row_missing_no_wrap missing_rows row_padding bank first_row last_row s :
  bank_rows bank missing_rows = Some s ->
  0 <= row_padding <= first_row -> 0 <= last_row -> last_row + row_padding < 2 ^ 64 ->
  first_row < 2 ^ 64 ->
  is_any_row_missing missing_rows row_padding bank first_row last_row
  = Some (existsb (fun r => (first_row - row_padding <=? r) && (r <=? last_row + row_padding)) s).
Proof.
  intros Hb Hp Hl Hu Hf. unfold is_any_row_missing. rewrite Hb. unfold u64.
  rewrite !Z.mod_small by lia.
  destruct (lower_bound s (first_row - row_padding)) as [y|] eqn:E; f_equal.
  - destruct (lower_bound_some _ _ _ E) as (Hin & Hk & Hmin).
    destruct (Z.leb_spec y (last_row + row_padding)) as [Hy|Hy].
    + symmetry. apply existsb_exists. exists y. split; [exact Hin|].
      apply andb_true_intro; split; apply Z.leb_le; lia.
    + symmetry. apply Bool.not_true_iff_false. intros Hex.
      apply existsb_exists in Hex as (r & Hr & Hrr).
      apply andb_prop in Hrr as [H1 H2]. apply Z.leb_le in H1, H2.
      specialize (Hmin r Hr H1). lia.
  - symmetry. apply Bool.not_true_iff_false. intros Hex.
    apply existsb_exists in Hex as (r & Hr & Hrr).
    apply andb_prop in Hrr as [H1 _]. apply Z.leb_le in H1.
    specialize (lower_bound_none _ _ E r Hr). lia.
Qed.

Lemma is_any_row_missing_no_wrap_witness :
  is_any_row_missing [(3, [0; 40; 100])] 10 3 45 60
  = Some (existsb (fun r => (45 - 10 <=? r) && (r <=? 60 + 10)) [0; 40; 100]).
Proof. apply (is_any_row_missing_no_wrap _ _ _ _ _ [0; 40; 100]); [reflexivity|lia..]. Defined.

(** [default_test] hammers only windows that passed the missing-row gate
    ([is_any_row_missing] answered false), and stops at the first window
    whose hammering asked to stop: a [false] result comes from the last
    hammered window, every earlier one returned [true], and a [true] result
    or an exception comes after windows that all returned [true] *)
Theorem default_loop_gate run missing_rows row_padding hammer_rows bank fuel :
  forall row hs r,
  default_loop run missing_rows row_padding hammer_rows bank row fuel = (hs, r) ->
  Forall (fun w => is_any_row_missing missing_rows row_padding bank (fst w) (snd w) = Some false) hs /\
  (r = Some false -> exists hs' w, hs = hs' ++ [w] /\
     Forall (fun w => run bank (fst w) (snd w) = true) hs' /\ run bank (fst w) (snd w) = false) /\
  (r <> Some false -> Forall (fun w => run bank (fst w) (snd w) = true) hs).
Proof.
  induction fuel as [|fuel IH]; intros row hs r H.
  - injection H as <- <-. split; [constructor|split; [discriminate|constructor]].
  - cbn [default_loop] in H. unfold hammer in H.
    destruct (is_any_row_missing missing_rows row_padding bank row (u64 (row + hammer_rows - 1)))
      as [[|]|] eqn:G.
    + exact (IH _ _ _ H).
    + destruct (run bank row (u64 (row + hammer_rows - 1))) eqn:R.
      * destruct (default_loop run missing_rows row_padding hammer_rows bank (u64 (row + 1)) fuel)
          as [hs0 r0] eqn:E.
        injection H as <- <-. destruct (IH _ _ _ E) as (Hg & Hf & Ht).
        split; [constructor; [exact G|exact Hg]|split].
        -- intros Hr. destruct (Hf Hr) as (hs' & w & -> & Hs' & Hw).
           exists ((row, u64 (row + hammer_rows - 1)) :: hs'), w.
           split; [reflexivity|split; [constructor; [exact R|exact Hs']|exact Hw]].
        -- intros Hr. constructor; [exact R|exact (Ht Hr)].
      * injection H as <- <-. split; [constructor; [exact G|constructor]|split].
        -- intros _. exists [], (row, u64 (row + hammer_rows - 1)).
           split; [reflexivity|split; [constructor|exact R]].
        -- intros Hr. contradiction Hr. reflexivity.
    + injection H as <- <-. split; [constructor|split; [discriminate|constructor]].
Qed.

Lemma default_loop_gate_witness :
  Forall (fun w => is_any_row_missing [(0, [10])] 2 0 (fst w) (snd w) = Some false)
    [(0, 1); (1, 2); (2, 3); (3, 4)] /\
  (Some false = Some false -> exists hs' w, [(0, 1); (1, 2); (2, 3); (3, 4)] = hs' ++ [w] /\
     Forall (fun w => (fun _ f _ => f <? 3) 0 (fst w) (snd w) = true) hs' /\
     (fun _ f _ => f <? 3) 0 (fst w) (snd w) = false) /\
  (Some false <> Some false ->
     Forall (fun w => (fun _ f _ => f <? 3) 0 (fst w) (snd w) = true) [(0, 1); (1, 2); (2, 3); (3, 4)]).
Proof.
  apply (default_loop_gate (fun _ f _ => f <? 3) [(0, [10])] 2 2 0 10 0).
  vm_compute. reflexivity.
Defined.

End NoncontiguousExtras.

Module PhysAddrExtras.
Import BitFacts PageFinder PageFinderFacts.

(** [get_physical_addr] only succeeds when the pagemap entry of the page
    is present with a nonzero frame; its result keeps the in-page offset of
    the virtual address and has the frame number as its page number, cut to
    52 bits by the [uint64_t] product [frame_num * page_size] *)
Theorem get_physical_addr_offset pm virtual_addr p :
  get_physical_addr pm virtual_addr = Some p ->
  is_page_present (pm (virtual_addr / page_size)) <> 0 /\
  frame_number_from_pagemap (pm (virtual_addr / page_size)) <> 0 /\
  p / page_size = frame_number_from_pagemap (pm (virtual_addr / page_size)) mod 2 ^ 52 /\
  p mod page_size = virtual_addr mod page_size.
Proof.
  unfold get_physical_addr.
  destruct (Z.eqb_spec (Z.land (pm (virtual_addr / page_size)) (Z.shiftl 1 63)) 0) as [|Hp];
    [discriminate|].
  destruct (Z.eqb_spec (frame_number_from_pagemap (pm (virtual_addr / page_size))) 0) as [|Hf];
    [discriminate|].
  intros H. injection H as <-.
  split; [exact Hp|split; [exact Hf|]].
  set (F := frame_number_from_pagemap (pm (virtual_addr / page_size))).
  change 4095 with (Z.ones 12). rewrite Z.land_ones by lia.
  unfold u64, page_size.
  change (F * 4096) with (F * 2 ^ 12). change (2 ^ 64) with (2 ^ 52 * 2 ^ 12).
  rewrite Z.mul_mod_distr_r by lia.
  pose proof (Z.mod_pos_bound virtual_addr (2 ^ 12) ltac:(lia)).
  rewrite lor_page_offset by lia. change 4096 with (2 ^ 12). split.
  - rewrite Z.div_add_l by lia. rewrite Z.div_small by lia. ring.
  - rewrite Z.add_comm, Z_mod_plus_full. apply Z.mod_mod. lia.
Qed.

Lemma get_physical_addr_offset_witness :
  let pm := fun k => if k =? 0x100 then 0x8000000000001234 else 0 in
  is_page_present (pm (0x100abc / page_size)) <> 0 /\
  frame_number_from_pagemap (pm (0x100abc / page_size)) <> 0 /\
  0x1234abc / page_size = frame_number_from_pagemap (pm (0x100abc / page_size)) mod 2 ^ 52 /\
  0x1234abc mod page_size = 0x100abc mod page_size.
Proof.
  intros pm. apply (get_physical_addr_offset pm 0x100abc 0x1234abc). vm_compute. reflexivity.
Defined.

End PhysAddrExtras.

Module ConfigExtras.
Import Dram Config.

Lemma get_banks_cnt_pos l : 1 <= get_banks_cnt l.
Proof.
  unfold get_banks_cnt, int_to_u64, int_shl1, to_int32.
  set (j := Z.of_nat (length (h_fns l)) mod 32).
  assert (Hj : 0 <= j < 32) by (apply Z.mod_pos_bound; lia).
  rewrite Z.shiftl_1_l.
  assert (Hp : 1 <= 2 ^ j < 2 ^ 32)
    by (split; [apply (Z.pow_le_mono_r 2 0 j); lia|apply Z.pow_lt_mono_r; lia]).
  rewrite (Z.mod_small (2 ^ j)) by lia.
  destruct (Z.ltb_spec (2 ^ j) (2 ^ 31)).
  - rewrite Z.mod_small by lia. lia.
  - pose proof (Z.div_mod (2 ^ j - 2 ^ 32) (2 ^ 64) ltac:(lia)).
    pose proof (Z.mod_pos_bound (2 ^ j - 2 ^ 32) (2 ^ 64) ltac:(lia)).
    destruct (Z.eq_dec ((2 ^ j - 2 ^ 32) mod 2 ^ 64) 0); [|lia].
    assert (2 ^ j - 2 ^ 32 < 0) by lia. nia.
Qed.

Lemma step_banks_range c c1 : step_banks c = Some c1 ->
  dram_layout c1 = dram_layout c /\ banks c1 <> [] /\
  Forall (fun b => b < get_banks_cnt (dram_layout c)) (banks c1).
Proof.
  pose proof (get_banks_cnt_pos (dram_layout c)) as Hpos.
  unfold step_banks. destruct (banks c) as [|b bs] eqn:Eb.
  - intros H. injection H as <-. cbn. split; [reflexivity|split].
    + destruct (Z.to_nat (get_banks_cnt (dram_layout c))) eqn:E; [lia|discriminate].
    + apply Forall_map, Forall_forall. intros k Hk. apply in_seq in Hk. lia.
  - destruct (existsb _ _) eqn:Ex; [discriminate|]. intros H. injection H as <-.
    split; [reflexivity|split; [rewrite Eb; discriminate|]].
    rewrite Eb. apply Forall_forall. intros x Hx.
    destruct (Z.ltb_spec x (get_banks_cnt (dram_layout c))) as [|Hge]; [assumption|].
    exfalso. apply Bool.not_true_iff_false in Ex. apply Ex, existsb_exists.
    exists x. split; [exact Hx|apply Z.leb_le; exact Hge].
Qed.

(** a configuration that passes [verify_values] has the layout it came
    with, row and column masks that [verify_masks] accepts, a nonempty
    bank list with every bank below [get_banks_cnt()], and as many
    [aggressor_init] as [victim_init] words *)
Theorem verify_values_invariants make_pattern c :
  match verify_values make_pattern c with
  | (_, Some c') =>
      dram_layout c' = dram_layout c /\
      verify_masks (row_masks (dram_layout c')) = true /\
      verify_masks (col_masks (dram_layout c')) = true /\
      banks c' <> [] /\ Forall (fun b => b < get_banks_cnt (dram_layout c')) (banks c') /\
      length (aggressor_init c') = length (victim_init c')
  | (_, None) => True
  end.
Proof.
  unfold verify_values.
  destruct (verify_masks (row_masks (dram_layout c))) eqn:Hr; [|exact I].
  destruct (verify_masks (col_masks (dram_layout c))) eqn:Hc; [|exact I]. cbn [negb].
  destruct (step_banks c) as [c1|] eqn:Hb; [|exact I].
  destruct (step_banks_range c c1 Hb) as (L1 & N1 & F1).
  destruct (step_test_max_rows c1) as [l2 c2] eqn:Et.
  assert (K2 : dram_layout c2 = dram_layout c1 /\ banks c2 = banks c1).
  { unfold step_test_max_rows in Et. destruct (_ && _); injection Et as _ <-; split; reflexivity. }
  set (c3 := step_hammer_pattern make_pattern c2).
  assert (K3 : dram_layout c3 = dram_layout c2 /\ banks c3 = banks c2).
  { unfold c3, step_hammer_pattern. destruct (pattern_bits _); [destruct (make_pattern _ _)|];
      split; reflexivity. }
  set (c4 := step_aggressor_init c3).
  assert (K4 : dram_layout c4 = dram_layout c3 /\ banks c4 = banks c3).
  { unfold c4, step_aggressor_init. destruct (aggressor_init c3); split; reflexivity. }
  destruct (Nat.eqb_spec (length (victim_init c4)) (length (aggressor_init c4))) as [Hl|];
    [|exact I].
  cbn [negb].
  destruct K4 as [-> ->], K3 as [-> ->], K2 as [-> ->].
  rewrite L1.
  split; [reflexivity|split; [exact Hr|split; [exact Hc|split; [exact N1|split; [exact F1|]]]]].
  symmetry. exact Hl.
Qed.

End ConfigExtras.

Module FastTestExtras.
Import Noncontiguous.

(** with [hammer_rows = 1] the step [hammer_rows - 1] of [fast_test] is
    0, so the loop never advances: when [first_row <= last_row] it
    hammers only the windows [first_row .. first_row] and
    [first_row + 1 .. first_row + 1], again and again, and never returns
    [true] *)
Theorem fast_test_stuck run missing_rows row_padding bank first_row last_row fuel hs r :
  0 <= first_row <= last_row -> last_row < 2 ^ 64 ->
  fast_test run missing_rows row_padding 1 bank first_row last_row fuel = (hs, r) ->
  r <> Some true /\
  Forall (fun w => w = (first_row, first_row) \/ w = (u64 (first_row + 1), u64 (first_row + 1))) hs.
Proof.
  intros Hf Hl. unfold fast_test.
  assert (Hb : u64 (last_row - 1 + 1) = last_row)
    by (unfold u64; rewrite Z.sub_add; apply Z.mod_small; lia).
  assert (Hr : u64 first_row = first_row) by (unfold u64; apply Z.mod_small; lia).
  assert (Hs : u64 (first_row + (1 - 1) mod 2 ^ 32) = first_row)
    by (rewrite Z.sub_diag, Z.mod_0_l, Z.add_0_r by lia; exact Hr).
  assert (Hw : u64 (first_row + 1 - 1) = first_row) by (rewrite Z.add_simpl_r; exact Hr).
  rewrite Hb. revert hs r. induction fuel as [|fuel IH]; intros hs r H.
  - injection H as <- <-. split; [discriminate|constructor].
  - cbn [fast_loop] in H. rewrite Hs, Hw in H.
    destruct (Z.leb_spec first_row last_row) as [_|]; [|lia].
    cbn [fst snd] in H.
    set (w1 := (first_row, first_row)) in *.
    set (w2 := (u64 (first_row + 1), u64 (first_row + 1))) in *.
    assert (H1 : Forall (fun w => w = w1 \/ w = w2) [w1]) by (repeat constructor; left; reflexivity).
    assert (H2 : Forall (fun w => w = w1 \/ w = w2) [w2]) by (repeat constructor; right; reflexivity).
    destruct (hammer run missing_rows row_padding bank first_row first_row) as [|[|]|] eqn:E1;
    destruct (hammer run missing_rows row_padding bank (u64 (first_row + 1)) (u64 (first_row + 1)))
      as [|[|]|] eqn:E2;
    destruct (fast_loop run missing_rows row_padding 1 bank first_row last_row fuel) as [hs0 r0] eqn:E;
    injection H as <- <-; destruct (IH hs0 r0 eq_refl) as [Hr0 Hf0];
    split; try discriminate; try exact Hr0;
    repeat first [apply Forall_app; split | apply Forall_nil | exact Hf0 | exact H1 | exact H2
      | apply Forall_cons; [first [left; reflexivity | right; reflexivity]|]].
Qed.

Lemma fast_test_stuck_witness :
  None <> Some true /\
  Forall (fun w => w = (5, 5) \/ w = (u64 (5 + 1), u64 (5 + 1)))
    [(5, 5); (6, 6); (5, 5); (6, 6); (5, 5); (6, 6)].
Proof.
  apply (fast_test_stuck (fun _ _ _ => true) [(0, [100])] 2 0 5 5 3); [lia|lia|].
  vm_compute. reflexivity.
Defined.

End FastTestExtras.

Module RowBoundsExtras.
Import Dram PageFinder RowBounds.

Lemma first_row_loop_at L m bank_ last_page fuel : forall p,
  0 <= p <= last_page -> fuel = Z.to_nat (last_page - p + 1) ->
  contains m last_page = true -> bank (of_phys L (page_2_phys last_page)) = bank_ ->
  (forall q, p <= q < last_page -> contains m q = true -> bank (of_phys L (page_2_phys q)) <> bank_) ->
  first_row_loop L m bank_ p last_page fuel = row (of_phys L (page_2_phys last_page)).
Proof.
  induction fuel as [|fuel IH]; intros p Hp Hf Hc Hb Ho; [lia|].
  cbn [first_row_loop]. destruct (Z.leb_spec p last_page) as [_|]; [|lia].
  destruct (Z.eq_dec p last_page) as [->|Hne].
  - rewrite Hc, Hb, Z.eqb_refl. reflexivity.
  - assert (Hrec : first_row_loop L m bank_ (p + 1) last_page fuel = row (of_phys L (page_2_phys last_page)))
      by (apply IH; [lia|lia|exact Hc|exact Hb|intros q Hq; apply Ho; lia]).
    destruct (contains m p) eqn:Cp; [|exact Hrec].
    destruct (Z.eqb_spec (bank (of_phys L (page_2_phys p))) bank_) as [E|]; [|exact Hrec].
    exfalso. exact (Ho p ltac:(lia) Cp E).
Qed.

Lemma last_row_loop_none L m bank_ fuel : forall p,
  (forall q, 0 <= q < p -> contains m q = true -> bank (of_phys L (page_2_phys q)) <> bank_) ->
  last_row_loop L m bank_ p fuel = 0.
Proof.
  induction fuel as [|fuel IH]; intros p Ho; [reflexivity|].
  cbn [last_row_loop]. destruct (Z.ltb_spec 0 p); [|reflexivity].
  assert (Hrec : last_row_loop L m bank_ (p - 1) fuel = 0) by (apply IH; intros q Hq; apply Ho; lia).
  destruct (contains m (p - 1)) eqn:Cp; [|exact Hrec].
  destruct (Z.eqb_spec (bank (of_phys L (page_2_phys (p - 1)))) bank_) as [E|]; [|exact Hrec].
  exfalso. exact (Ho (p - 1) ltac:(lia) Cp E).
Qed.

(** the downward scan of [get_row_bounds] starts below [last_page]
    ([p-- > 0] decrements before the first test), so a bank whose only
    page in [0, last_page] is [last_page] itself gets [first_row] from the
    upward scan but [last_row = 0]: without [test_first_row] and
    [test_last_row], the [assert(last_row >= first_row)] fails unless that
    row is 0 *)
Theorem get_row_bounds_skips_last_page L m bank_ first_page last_page :
  0 <= first_page <= last_page ->
  contains m last_page = true -> bank (of_phys L (page_2_phys last_page)) = bank_ ->
  (forall p, 0 <= p < last_page -> contains m p = true -> bank (of_phys L (page_2_phys p)) <> bank_) ->
  get_row_bounds L m 0 0 bank_ first_page last_page =
    if row (of_phys L (page_2_phys last_page)) <=? 0
    then Some (row (of_phys L (page_2_phys last_page)), 0) else None.
Proof.
  intros Hp Hc Hb Ho. unfold get_row_bounds. cbn [Z.eqb].
  rewrite (first_row_loop_at L m bank_ last_page _ first_page Hp eq_refl Hc Hb)
    by (intros q Hq; apply Ho; lia).
  rewrite (last_row_loop_none L m bank_ _ last_page Ho). reflexivity.
Qed.

Lemma get_row_bounds_skips_last_page_witness :
  get_row_bounds example_layout [(0x12345, 0)] 0 0 24 0x12340 0x12345 =
    if row (of_phys example_layout (page_2_phys 0x12345)) <=? 0
    then Some (row (of_phys example_layout (page_2_phys 0x12345)), 0) else None.
Proof.
  apply get_row_bounds_skips_last_page; [lia|vm_compute; reflexivity|vm_compute; reflexivity|].
  intros p Hp Hc. exfalso. unfold contains in Hc. cbn [map_find] in Hc.
  rewrite Z.mod_small in Hc by lia.
  destruct (Z.eqb_spec p 0x12345); [lia|discriminate].
Defined.

End RowBoundsExtras.
